(** * Matching and scoring engine of the spec test suite ([tests/utils.py])

    A shallow embedding of the utility module that grades parser output
    against ground truth: the normalizers, the edit distance, the fuzzy
    title matcher, the page-range IoU, the greedy chunk matcher and the
    entity scorer, followed by the properties the specification states
    about them.

    Conventions of the embedding.
    - A Python [str] is a [list ascii]; a character is read as the Unicode
      code point of the same number, so the model covers the strings whose
      code points lie below 256.  On that range [str.lower] keeps the
      length, and [str.isspace], [str.split], [str.strip] and the regular
      expression class [\s] agree on what white space is.
    - A Python [int] is a [Z].
    - A Python [float] that comes out of a division of two integers, or out
      of [float(text)], is the exact rational ([Q]) it denotes, with the
      two infinities and the not-a-number value where [float] can produce
      them; the rounding to binary64 is not modelled.
    - A function that can raise returns [result], the exception on the
      left. *)

From Stdlib Require Import ZArith QArith Qabs Qround List Ascii String Bool Lia.
From stdpp Require Import gmap strings.
Import ListNotations.

Local Open Scope Z_scope.

(** ** Python strings *)

Abbreviation str := (list ascii).

(** A literal: [s!"abc"] is the Python string ['abc']. *)
Notation "s! x" := (list_ascii_of_string x) (at level 1, x at level 0, format "s! x").

Definition code (c : ascii) : Z := Z.of_N (N_of_ascii c).

Definition chr (n : Z) : ascii := ascii_of_N (Z.to_N n).

Definition len {A : Type} (l : list A) : Z := Z.of_nat (length l).

Definition in_range (lo hi n : Z) : bool := (lo <=? n) && (n <=? hi).

(** [str.isspace] on one character: tab to carriage return, the four
    separators 0x1c-0x1f, the blank, NEL and the no-break space. *)
Definition isspace (c : ascii) : bool :=
  let n := code c in
  in_range 9 13 n || in_range 28 32 n || (n =? 133) || (n =? 160).

(** The regular expression class [\w]: alphanumeric characters and the
    underscore. *)
Definition isword (c : ascii) : bool :=
  let n := code c in
  in_range 48 57 n || in_range 65 90 n || (n =? 95) || in_range 97 122 n
  || (n =? 170) || in_range 178 179 n || (n =? 181) || in_range 185 186 n
  || in_range 188 190 n || in_range 192 214 n || in_range 216 246 n
  || in_range 248 255 n.

Definition isdigit (c : ascii) : bool := in_range 48 57 (code c).

(** [str.lower] on one character. *)
Definition lower_char (c : ascii) : ascii :=
  let n := code c in
  if in_range 65 90 n || in_range 192 214 n || in_range 216 222 n
  then chr (n + 32) else c.

Definition lower (s : str) : str := map lower_char s.

Fixpoint lstrip (s : str) : str :=
  match s with
  | c :: s' => if isspace c then lstrip s' else s
  | [] => []
  end.

Definition rstrip (s : str) : str := rev (lstrip (rev s)).

(** [s.strip()] *)
Definition strip (s : str) : str := rstrip (lstrip s).

Definition str_eqb (a b : str) : bool := bool_decide (a = b).

(** [s.split()]: the maximal runs of characters that are not white space.
    [cur] is the run being read, last character first. *)
Fixpoint split_ws_from (cur : str) (s : str) : list str :=
  match s with
  | [] => match cur with [] => [] | _ => [rev cur] end
  | c :: s' =>
      if isspace c
      then match cur with
           | [] => split_ws_from [] s'
           | _ => rev cur :: split_ws_from [] s'
           end
      else split_ws_from (c :: cur) s'
  end.

Definition split_ws (s : str) : list str := split_ws_from [] s.

(** [s.startswith(p)] *)
Fixpoint startswith (s p : str) : bool :=
  match p, s with
  | [], _ => true
  | _ :: _, [] => false
  | x :: p', y :: s' => bool_decide (x = y) && startswith s' p'
  end.

(** [p in s] for two strings. *)
Fixpoint contains (s p : str) : bool :=
  startswith s p ||
  match s with
  | [] => false
  | _ :: s' => contains s' p
  end.

(** [c in s] for one character. *)
Definition has_char (c : ascii) (s : str) : bool :=
  existsb (fun x => bool_decide (x = c)) s.

(** [s.split(sep)] for a one-character separator: every segment between
    two separators, the empty ones included. *)
Fixpoint split_on (sep : ascii) (s : str) : list str :=
  match s with
  | [] => [[]]
  | c :: s' =>
      match split_on sep s' with
      | seg :: rest =>
          if bool_decide (c = sep) then [] :: seg :: rest else (c :: seg) :: rest
      | [] => [[]]
      end
  end.

(** [s.replace(old, new)] for a non-empty [old]: the occurrences are found
    from the left and do not overlap.  [skip] counts the characters of an
    occurrence that remain to be passed over. *)
Fixpoint replace_from (old new : str) (skip : nat) (s : str) : str :=
  match s with
  | [] => []
  | c :: s' =>
      match skip with
      | S k => replace_from old new k s'
      | O =>
          if startswith s old
          then new ++ replace_from old new (Nat.pred (length old)) s'
          else c :: replace_from old new 0 s'
      end
  end.

Definition replace (old new : str) (s : str) : str := replace_from old new 0 s.

(** [enumerate(s)] *)
Fixpoint enumerate_from {A : Type} (i : nat) (l : list A) : list (nat * A) :=
  match l with
  | [] => []
  | x :: l' => (i, x) :: enumerate_from (S i) l'
  end.

Definition enumerate {A : Type} (l : list A) : list (nat * A) := enumerate_from 0 l.

(** ** String similarity: [calculate_levenshtein_distance] *)

(** [(c1 != c2)] added to an integer. *)
Definition neq_cost (c1 c2 : ascii) : Z := if bool_decide (c1 = c2) then 0 else 1.

(** The body of the inner loop: one cell appended to [current_row].  The
    three list reads stay in range (see [inner_loop_row]), so the default
    of [nth] is never returned. *)
Definition inner_step (c1 : ascii) (previous_row current_row : list Z)
    (jc : nat * ascii) : list Z :=
  let '(j, c2) := jc in
  let insertions := nth (S j) previous_row 0 + 1 in
  let deletions := nth j current_row 0 + 1 in
  let substitutions := nth j previous_row 0 + neq_cost c1 c2 in
  current_row ++ [Z.min (Z.min insertions deletions) substitutions].

(** The body of the outer loop: the row of [s1[:i+1]] from that of [s1[:i]]. *)
Definition outer_step (s2 : str) (previous_row : list Z) (ic : nat * ascii) : list Z :=
  let '(i, c1) := ic in
  fold_left (inner_step c1 previous_row) (enumerate s2) [Z.of_nat i + 1].

Definition range_row (n : nat) : list Z := map Z.of_nat (seq 0 n).

(** The function once its first test has failed, that is for
    [len(s1) >= len(s2)]. *)
Definition levenshtein_rows (s1 s2 : str) : Z :=
  if len s2 =? 0 then len s1
  else List.last (fold_left (outer_step s2) (enumerate s1) (range_row (S (length s2)))) 0.

(** The recursive call swaps the arguments, after which the first test
    fails: the recursion is one call deep and is written out. *)
Definition calculate_levenshtein_distance (s1 s2 : str) : Z :=
  if len s1 <? len s2 then levenshtein_rows s2 s1 else levenshtein_rows s1 s2.

(** The edit distance by its recurrence, on the first characters. *)
Fixpoint lev (a : str) : str -> Z :=
  fix lev_a (b : str) : Z :=
    match a with
    | [] => len b
    | x :: a' =>
        match b with
        | [] => len a
        | y :: b' =>
            Z.min (Z.min (lev a' b + 1) (lev_a b' + 1)) (lev a' b' + neq_cost x y)
        end
    end.

(** ** Title matcher: [fuzzy_title_match] *)

(** The test of the inner loop of [check_word_similarity]. *)
Definition word_similar (word_a word_b : str) : bool :=
  contains word_b word_a || contains word_a word_b
  || startswith word_b word_a || startswith word_a word_b
  || ((4 <=? len word_a) && (4 <=? len word_b)
      && str_eqb (firstn 4 word_a) (firstn 4 word_b)).

(** The inner loop: [true] when it leaves through [break]. *)
Fixpoint some_word_similar (word_a : str) (words_b : list str) : bool :=
  match words_b with
  | [] => false
  | word_b :: rest =>
      if word_similar word_a word_b then true else some_word_similar word_a rest
  end.

(** The outer loop, from a given value of [matches]. *)
Fixpoint count_matches (words_a words_b : list str) (matches : Z) : Z :=
  match words_a with
  | [] => matches
  | word_a :: rest =>
      count_matches rest words_b
        (if some_word_similar word_a words_b then matches + 1 else matches)
  end.

Definition check_word_similarity (words_a words_b : list str) : bool :=
  count_matches words_a words_b 0 =? len words_a.

(** [int(max_len * 0.2)].  The product is a binary64 value and [int]
    truncates it; for a length below 2^48 the result is the integer
    quotient by 5, which is what the model takes. *)
Definition int_of_fifth (max_len : Z) : Z := max_len / 5.

Definition default_max_distance : Z := 3.

Definition fuzzy_title_match (title1 title2 : str) (max_distance : Z) : bool :=
  let norm1 := strip (lower title1) in
  let norm2 := strip (lower title2) in
  if str_eqb norm1 norm2 then true
  else
    let words1 := split_ws norm1 in
    let words2 := split_ws norm2 in
    if check_word_similarity words1 words2 || check_word_similarity words2 words1
    then true
    else
      let distance := calculate_levenshtein_distance norm1 norm2 in
      let max_len := Z.max (len norm1) (len norm2) in
      let threshold := Z.max max_distance (int_of_fifth max_len) in
      distance <=? threshold.

(** The first two stages of the decision, named for the statements. *)
Definition exact_stage (title1 title2 : str) : bool :=
  str_eqb (strip (lower title1)) (strip (lower title2)).

Definition token_stage (title1 title2 : str) : bool :=
  let words1 := split_ws (strip (lower title1)) in
  let words2 := split_ws (strip (lower title2)) in
  check_word_similarity words1 words2 || check_word_similarity words2 words1.

(** ** Interval overlap: [calculate_iou_advanced] *)

(** A chunk record as the schema and the data model have it: a title and
    two integer pages. *)
Record Chunk : Type := mkChunk {
  title : str;
  start_page : Z;
  end_page : Z
}.

Record Metrics : Type := mkMetrics {
  m_iou : Q;
  m_intersection : Z;
  m_union : Z;
  m_pred_size : Z;
  m_gold_size : Z;
  m_size_ratio : Q;
  m_overlap_percentage : Q
}.

(** [n / d if d > 0 else 0.0].  The quotient of two integers is kept exact;
    for pages of a realistic size (below 2^25) two such quotients compare,
    with each other and with a threshold like 0.7, as their binary64
    roundings do. *)
Definition ratio_or_zero (n d : Z) : Q :=
  if 0 <? d then Qmake n (Z.to_pos d) else 0%Q.

(** [normalize_page_number] on a page that is already an [int] (see
    [int_page_spec]). *)
Definition int_page (page : Z) : Z := page.

Definition calculate_iou_advanced (pred_chunk gold_chunk : Chunk) : Q * Metrics :=
  let pred_start := int_page (start_page pred_chunk) in
  let pred_end := int_page (end_page pred_chunk) in
  let gold_start := int_page (start_page gold_chunk) in
  let gold_end := int_page (end_page gold_chunk) in
  let intersection_start := Z.max pred_start gold_start in
  let intersection_end := Z.min pred_end gold_end in
  let intersection := Z.max 0 (intersection_end - intersection_start + 1) in
  let pred_size := pred_end - pred_start + 1 in
  let gold_size := gold_end - gold_start + 1 in
  let union := pred_size + gold_size - intersection in
  let iou := ratio_or_zero intersection union in
  (iou,
   {| m_iou := iou; m_intersection := intersection; m_union := union;
      m_pred_size := pred_size; m_gold_size := gold_size;
      m_size_ratio := ratio_or_zero pred_size gold_size;
      m_overlap_percentage := ratio_or_zero intersection gold_size |}).

Definition calculate_iou (pred_chunk gold_chunk : Chunk) : Q :=
  fst (calculate_iou_advanced pred_chunk gold_chunk).

(** ** Chunk matcher: [compare_chunks] *)

(** [==] on two chunk dictionaries. *)
Definition chunk_eqb (a b : Chunk) : bool :=
  str_eqb (title a) (title b) && (start_page a =? start_page b)
  && (end_page a =? end_page b).

(** [unmatched_gold.remove(x)]: the first element equal to [x] goes.  A
    list without such an element (a [ValueError] in Python) does not occur,
    since [x] is read from the list. *)
Fixpoint list_remove (x : Chunk) (l : list Chunk) : list Chunk :=
  match l with
  | [] => []
  | y :: l' => if chunk_eqb y x then l' else y :: list_remove x l'
  end.

(** The title test of the inner loop. *)
Definition title_match (use_fuzzy_matching : bool) (pred_chunk gold_chunk : Chunk) : bool :=
  if use_fuzzy_matching
  then fuzzy_title_match (title pred_chunk) (title gold_chunk) default_max_distance
  else str_eqb (strip (lower (title pred_chunk))) (strip (lower (title gold_chunk))).

(** The inner loop over [unmatched_gold], from given values of
    [best_match] and [best_score]. *)
Fixpoint scan_gold (iou_threshold : Q) (use_fuzzy_matching : bool) (pred_chunk : Chunk)
    (unmatched_gold : list Chunk) (best_match : option Chunk) (best_score : Q)
    : option Chunk * Q :=
  match unmatched_gold with
  | [] => (best_match, best_score)
  | gold_chunk :: rest =>
      if title_match use_fuzzy_matching pred_chunk gold_chunk
      then
        let iou := fst (calculate_iou_advanced pred_chunk gold_chunk) in
        if Qle_bool iou_threshold iou && negb (Qle_bool iou best_score)
        then scan_gold iou_threshold use_fuzzy_matching pred_chunk rest (Some gold_chunk) iou
        else scan_gold iou_threshold use_fuzzy_matching pred_chunk rest best_match best_score
      else scan_gold iou_threshold use_fuzzy_matching pred_chunk rest best_match best_score
  end.

(** The outer loop and the test on the pool that follows it.  A chunk
    dictionary has keys, so [if best_match:] only asks whether a match was
    found. *)
Fixpoint match_chunks (iou_threshold : Q) (use_fuzzy_matching : bool)
    (predicted unmatched_gold : list Chunk) : bool :=
  match predicted with
  | [] => match unmatched_gold with [] => true | _ :: _ => false end
  | pred_chunk :: rest =>
      match scan_gold iou_threshold use_fuzzy_matching pred_chunk unmatched_gold None 0%Q with
      | (Some best_match, _) =>
          match_chunks iou_threshold use_fuzzy_matching rest
            (list_remove best_match unmatched_gold)
      | (None, _) => false
      end
  end.

(** [validate_chunk_continuity]: the issues found, one per entry. *)
Inductive Issue : Type :=
  | StartAfterEnd (c : Chunk)
  | LargeGap (gap : Z) (prev c : Chunk)
  | Overlapping (overlap : Z) (prev c : Chunk).

Fixpoint insert_by_start (c : Chunk) (l : list Chunk) : list Chunk :=
  match l with
  | [] => [c]
  | d :: l' => if start_page c <=? start_page d then c :: l else d :: insert_by_start c l'
  end.

(** [sorted(chunks, key=lambda x: x['start_page'])], a stable sort. *)
Definition sorted_by_start (chunks : list Chunk) : list Chunk :=
  fold_right insert_by_start [] chunks.

Fixpoint continuity_issues (prev : option Chunk) (sorted_chunks : list Chunk) : list Issue :=
  match sorted_chunks with
  | [] => []
  | chunk :: rest =>
      (if end_page chunk <? start_page chunk then [StartAfterEnd chunk] else [])
      ++ match prev with
         | None => []
         | Some p =>
             let gap := start_page chunk - end_page p - 1 in
             if 10 <? gap then [LargeGap gap p chunk]
             else if gap <? 0 then [Overlapping (Z.abs gap) p chunk]
             else []
         end
      ++ continuity_issues (Some chunk) rest
  end.

Definition validate_chunk_continuity (chunks : list Chunk) : bool * list Issue :=
  let issues := continuity_issues None (sorted_by_start chunks) in
  (match issues with [] => true | _ => false end, issues).

Definition default_iou_threshold : Q := 7 # 10.

Section Validated.

(** [validate_json_data(data, 'chunks')] reads a schema file that is not
    part of the module: [chunks_valid data] is [false] where
    [jsonschema.validate] raises [ValidationError].  Without the
    [jsonschema] package the function accepts everything. *)
Variable chunks_valid : list Chunk -> bool.

(** [page_tolerance] is accepted and never read.  The continuity issues
    are printed and have no part in the result. *)
Definition compare_chunks (predicted gold_standard : list Chunk) (page_tolerance : Z)
    (iou_threshold : Q) (use_fuzzy_matching : bool) : bool :=
  if negb (chunks_valid predicted && chunks_valid gold_standard) then false
  else if negb (len predicted =? len gold_standard) then false
  else
    let unmatched_gold := gold_standard in
    match_chunks iou_threshold use_fuzzy_matching predicted unmatched_gold.

End Validated.

(** ** Normalizer *)

(** [re.sub(r'\s+', ' ', s)]; [in_run] says that the previous character was
    white space. *)
Fixpoint collapse_ws (in_run : bool) (s : str) : str :=
  match s with
  | [] => []
  | c :: s' =>
      if isspace c
      then if in_run then collapse_ws true s' else " "%char :: collapse_ws true s'
      else c :: collapse_ws false s'
  end.

(** [re.sub(r'[^\w\s]', '', s)] *)
Definition drop_punctuation (s : str) : str :=
  filter (fun c => isword c || isspace c) s.

Definition normalize_material (material : str) : str :=
  let normalized := strip (lower material) in
  let normalized := replace s!"-" s!" " normalized in
  let normalized := drop_punctuation normalized in
  let normalized := collapse_ws false normalized in
  normalized.

(** The exceptions the module can let through. *)
Inductive PyExc : Type :=
  | ValueError | IndexError | ZeroDivisionError | TypeError | OverflowError
  | AttributeError.

Abbreviation result A := (PyExc + A)%type.

Definition ret {A : Type} (x : A) : result A := inr x.
Definition raise {A : Type} (e : PyExc) : result A := inl e.

Definition bind {A B : Type} (m : result A) (k : A -> result B) : result B :=
  match m with
  | inl e => inl e
  | inr x => k x
  end.

Notation "x <- m ;; k" := (bind m (fun x => k))
  (at level 100, m at next level, right associativity).

(** A [float]: a rational, an infinity or the not-a-number value. *)
Inductive PyFloat : Type :=
  | Fin (q : Q)
  | PosInf
  | NegInf
  | NaN.

(** What is left of binary64 in the model: a magnitude at or above the
    overflow threshold is an infinity and one at or below half the least
    subnormal is zero; a value in between is kept exact. *)
Definition overflow_threshold : Q := inject_Z (2 ^ 1024 - 2 ^ 970).
Definition underflow_threshold : Q := Qmake 1 (2 ^ 1075).

Definition fl (q : Q) : PyFloat :=
  if Qle_bool overflow_threshold (Qabs q)
  then (if Qle_bool 0 q then PosInf else NegInf)
  else if Qle_bool (Qabs q) underflow_threshold then Fin 0
  else Fin q.

Definition float_is_zero (f : PyFloat) : bool :=
  match f with
  | Fin q => Qeq_bool q 0
  | _ => false
  end.

(** [a / b] on two floats. *)
Definition float_div (a b : PyFloat) : result PyFloat :=
  if float_is_zero b then raise ZeroDivisionError
  else ret
    match a, b with
    | NaN, _ | _, NaN => NaN
    | Fin p, Fin q => fl (p / q)
    | Fin _, _ => Fin 0
    | PosInf, Fin q => if Qle_bool 0 q then PosInf else NegInf
    | NegInf, Fin q => if Qle_bool 0 q then NegInf else PosInf
    | _, _ => NaN
    end.

(** [a + b] on two floats. *)
Definition float_add (a b : PyFloat) : PyFloat :=
  match a, b with
  | NaN, _ | _, NaN => NaN
  | Fin p, Fin q => fl (p + q)
  | PosInf, NegInf | NegInf, PosInf => NaN
  | PosInf, _ | _, PosInf => PosInf
  | NegInf, _ | _, NegInf => NegInf
  end.

Definition float_neg (a : PyFloat) : PyFloat :=
  match a with
  | Fin p => Fin (- p)
  | PosInf => NegInf
  | NegInf => PosInf
  | NaN => NaN
  end.

(** [a == b] on two floats. *)
Definition float_eqb (a b : PyFloat) : bool :=
  match a, b with
  | Fin p, Fin q => Qeq_bool p q
  | PosInf, PosInf | NegInf, NegInf => true
  | _, _ => false
  end.

(** The white space that [float] and [int] strip from a string. *)
Definition isspace_num (c : ascii) : bool :=
  let n := code c in
  in_range 9 13 n || (n =? 32) || (n =? 133) || (n =? 160).

Fixpoint lstrip_num (s : str) : str :=
  match s with
  | c :: s' => if isspace_num c then lstrip_num s' else s
  | [] => []
  end.

Definition strip_num (s : str) : str := rev (lstrip_num (rev (lstrip_num s))).

(** An underscore of a numeric literal stands between two digits; [prev]
    is the character before [s]. *)
Fixpoint underscores_ok (prev : option ascii) (s : str) : bool :=
  let after_digit := match prev with Some p => isdigit p | None => false end in
  match s with
  | [] => negb (bool_decide (prev = Some "_"%char))
  | c :: s' =>
      (if bool_decide (c = "_"%char) then after_digit
       else negb (bool_decide (prev = Some "_"%char)) || isdigit c)
      && underscores_ok (Some c) s'
  end.

Definition drop_underscores (s : str) : str :=
  filter (fun c => negb (bool_decide (c = "_"%char))) s.

(** The longest prefix of digits and what follows it. *)
Fixpoint span_digits (s : str) : str * str :=
  match s with
  | c :: s' =>
      if isdigit c then let '(ds, r) := span_digits s' in (c :: ds, r) else ([], s)
  | [] => ([], [])
  end.

Definition digit_value (c : ascii) : Z := code c - 48.

(** The number a string of digits denotes. *)
Definition digits_value (ds : str) : Z :=
  fold_left (fun acc c => 10 * acc + digit_value c) ds 0.

(** An optional sign: whether it is a minus, and the rest. *)
Definition take_sign (s : str) : bool * str :=
  match s with
  | c :: s' =>
      if bool_decide (c = "+"%char) then (false, s')
      else if bool_decide (c = "-"%char) then (true, s')
      else (false, s)
  | [] => (false, [])
  end.

(** An exponent part, [e] or [E] with an optional sign and digits, up to
    the end of the string. *)
Definition parse_exponent (s : str) : option Z :=
  match s with
  | [] => Some 0
  | c :: s' =>
      if bool_decide (c = "e"%char) || bool_decide (c = "E"%char)
      then
        let '(neg, s1) := take_sign s' in
        let '(ds, r) := span_digits s1 in
        match ds, r with
        | _ :: _, [] => Some (if neg then - digits_value ds else digits_value ds)
        | _, _ => None
        end
      else None
  end.

(** A literal without underscores and without surrounding white space. *)
Definition parse_float_literal (s : str) : option PyFloat :=
  let '(neg, s1) := take_sign s in
  let sign := fun f => if neg then float_neg f else f in
  let word := lower s1 in
  if str_eqb word s!"inf" || str_eqb word s!"infinity" then Some (sign PosInf)
  else if str_eqb word s!"nan" then Some NaN
  else
    let '(ip, r1) := span_digits s1 in
    let '(fp, r2) :=
      match r1 with
      | c :: r => if bool_decide (c = "."%char) then span_digits r else ([], r1)
      | [] => ([], [])
      end in
    match ip ++ fp with
    | [] => None
    | _ =>
        match parse_exponent r2 with
        | Some e =>
            let mantissa := inject_Z (digits_value (ip ++ fp)) in
            let q := (mantissa * Qpower 10 (e - len fp))%Q in
            Some (fl (if neg then - q else q))
        | None => None
        end
    end.

(** [float(text)]: [None] stands for the [ValueError]. *)
Definition parse_float (text : str) : option PyFloat :=
  let s := strip_num text in
  if underscores_ok None s then parse_float_literal (drop_underscores s) else None.

Definition py_float (text : str) : result PyFloat :=
  match parse_float text with
  | Some f => ret f
  | None => raise ValueError
  end.

(** [int(text)]: an optional sign and digits.  The bound that recent
    interpreters put on the number of digits is not modelled. *)
Definition parse_int (text : str) : option Z :=
  let s := strip_num text in
  if underscores_ok None s
  then
    let '(neg, s1) := take_sign (drop_underscores s) in
    let '(ds, r) := span_digits s1 in
    match ds, r with
    | _ :: _, [] => Some (if neg then - digits_value ds else digits_value ds)
    | _, _ => None
    end
  else None.

(** [l[i]] *)
Definition index {A : Type} (l : list A) (i : nat) : result A :=
  match nth_error l i with
  | Some x => ret x
  | None => raise IndexError
  end.

(** The double quote, as a one-character string. *)
Definition dquote : ascii := "034"%char.

Definition normalize_diameter (diameter : str) : result PyFloat :=
  let diameter :=
    strip (replace s!"in" [] (replace s!"inch" [] (replace [dquote] [] (strip diameter)))) in
  if has_char "-" diameter then
    let parts := split_on "-" diameter in
    p0 <- index parts 0 ;;
    whole <- py_float p0 ;;
    p1 <- index parts 1 ;;
    let frac_parts := split_on "/" p1 in
    f0 <- index frac_parts 0 ;;
    numerator <- py_float f0 ;;
    f1 <- index frac_parts 1 ;;
    denominator <- py_float f1 ;;
    fraction <- float_div numerator denominator ;;
    ret (float_add whole fraction)
  else if has_char "/" diameter then
    let frac_parts := split_on "/" diameter in
    f0 <- index frac_parts 0 ;;
    numerator <- py_float f0 ;;
    f1 <- index frac_parts 1 ;;
    denominator <- py_float f1 ;;
    float_div numerator denominator
  else py_float diameter.

(** The values found in a record read from JSON. *)
Inductive PyVal : Type :=
  | VNone
  | VInt (z : Z)
  | VFloat (f : PyFloat)
  | VStr (s : str).

(** [int(f)] on a float: towards zero. *)
Definition int_of_float (f : PyFloat) : result Z :=
  match f with
  | Fin q => ret (if Qle_bool 0 q then Qfloor q else Qceiling q)
  | PosInf | NegInf => raise OverflowError
  | NaN => raise ValueError
  end.

Definition normalize_page_number (page : PyVal) : result Z :=
  match page with
  | VStr s =>
      match parse_int (strip s) with
      | Some z => ret z
      | None => raise ValueError
      end
  | VInt z => ret z
  | VFloat f => int_of_float f
  | VNone => raise TypeError
  end.

(** ** Entity matcher and scorer *)

(** An entity is a dictionary from field names to values. *)
Abbreviation Entity := (gmap string PyVal).

(** [v1 == v2] *)
Definition py_eqb (v1 v2 : PyVal) : bool :=
  match v1, v2 with
  | VNone, VNone => true
  | VInt a, VInt b => a =? b
  | VInt a, VFloat f | VFloat f, VInt a => float_eqb (Fin (inject_Z a)) f
  | VFloat f, VFloat g => float_eqb f g
  | VStr s, VStr t => str_eqb s t
  | _, _ => false
  end.

(** [normalize_material(v)]: a value that is not a string has no [lower]. *)
Definition normalize_material_val (v : PyVal) : result PyVal :=
  match v with
  | VStr s => ret (VStr (normalize_material s))
  | _ => raise AttributeError
  end.

Definition normalize_entity (entity : Entity) : result Entity :=
  let normalized := entity in
  normalized <-
    match normalized !! "material"%string with
    | Some v => m <- normalize_material_val v ;; ret (<["material"%string := m]> normalized)
    | None => ret normalized
    end ;;
  normalized <-
    match normalized !! "diameter"%string with
    | Some (VStr s) =>
        d <- normalize_diameter s ;; ret (<["diameter"%string := VFloat d]> normalized)
    | _ => ret normalized
    end ;;
  match normalized !! "location_page"%string with
  | Some v =>
      p <- normalize_page_number v ;; ret (<["location_page"%string := VInt p]> normalized)
  | None => ret normalized
  end.

Definition key_fields : list string :=
  ["type"; "material"; "diameter"; "schedule"]%string.

(** The loop over [key_fields]: [false] when it leaves through
    [return False]. *)
Fixpoint fields_agree (fields : list string) (entity1 entity2 : Entity) : bool :=
  match fields with
  | [] => true
  | field :: rest =>
      match entity1 !! field, entity2 !! field with
      | Some v1, Some v2 =>
          if negb (py_eqb v1 v2) then false else fields_agree rest entity1 entity2
      | _, _ => fields_agree rest entity1 entity2
      end
  end.

Definition float_abs (f : PyFloat) : PyFloat :=
  match f with
  | Fin q => Fin (Qabs q)
  | PosInf | NegInf => PosInf
  | NaN => NaN
  end.

(** [f > 1] *)
Definition float_gt_one (f : PyFloat) : bool :=
  match f with
  | Fin q => negb (Qle_bool q 1)
  | PosInf => true
  | NegInf | NaN => false
  end.

Definition num_of (v : PyVal) : option PyFloat :=
  match v with
  | VInt z => Some (Fin (inject_Z z))
  | VFloat f => Some f
  | _ => None
  end.

(** [abs(v1 - v2) > 1] *)
Definition page_diff_exceeds (v1 v2 : PyVal) : result bool :=
  match v1, v2 with
  | VInt a, VInt b => ret (1 <? Z.abs (a - b))
  | _, _ =>
      match num_of v1, num_of v2 with
      | Some f1, Some f2 => ret (float_gt_one (float_abs (float_add f1 (float_neg f2))))
      | _, _ => raise TypeError
      end
  end.

Definition entities_match (entity1 entity2 : Entity) : result bool :=
  if negb (fields_agree key_fields entity1 entity2) then ret false
  else
    match entity1 !! "location_page"%string, entity2 !! "location_page"%string with
    | Some p1, Some p2 =>
        exceeds <- page_diff_exceeds p1 p2 ;;
        if exceeds then ret false else ret true
    | _, _ => ret true
    end.

(** [[normalize_entity(entity) for entity in entities]] *)
Fixpoint normalize_all (entities : list Entity) : result (list Entity) :=
  match entities with
  | [] => ret []
  | entity :: rest =>
      n <- normalize_entity entity ;;
      ns <- normalize_all rest ;;
      ret (n :: ns)
  end.

(** The inner loop of the matching: [true] when it leaves through [break]. *)
Fixpoint some_gold_matches (pred_entity : Entity) (norm_gold : list Entity) : result bool :=
  match norm_gold with
  | [] => ret false
  | gold_entity :: rest =>
      m <- entities_match pred_entity gold_entity ;;
      if m then ret true else some_gold_matches pred_entity rest
  end.

(** The outer loop, from a given value of [true_positives]. *)
Fixpoint count_true_positives (norm_predicted norm_gold : list Entity) (true_positives : Z)
    : result Z :=
  match norm_predicted with
  | [] => ret true_positives
  | pred_entity :: rest =>
      m <- some_gold_matches pred_entity norm_gold ;;
      count_true_positives rest norm_gold (if m then true_positives + 1 else true_positives)
  end.

(** [n / d] for two integers with [d > 0]. *)
Definition int_div (n d : Z) : Q := Qmake n (Z.to_pos d).

Section Scored.

(** [validate_json_data(data, 'entities')], as for the chunks. *)
Variable entities_valid : list Entity -> bool.

Definition score_entities (predicted gold_standard : list Entity) : result (Q * Q * Q) :=
  if negb (entities_valid predicted && entities_valid gold_standard)
  then ret (0, 0, 0)%Q
  else
    match predicted, gold_standard with
    | [], [] => ret (1, 1, 1)%Q
    | [], _ => ret (0, 0, 0)%Q
    | _, [] => ret (0, 0, 0)%Q
    | _, _ =>
        norm_predicted <- normalize_all predicted ;;
        norm_gold <- normalize_all gold_standard ;;
        true_positives <- count_true_positives norm_predicted norm_gold 0 ;;
        let precision := int_div true_positives (len predicted) in
        let recall := int_div true_positives (len gold_standard) in
        let f1_score :=
          if negb (Qle_bool (precision + recall) 0)
          then (2 * (precision * recall) / (precision + recall))%Q
          else 0%Q in
        ret (precision, recall, f1_score)
    end.

End Scored.

(** The package [jsonschema] missing: every list passes. *)
Definition no_jsonschema {A : Type} (data : list A) : bool := true.

(** ** The specification's side of the statements *)

(** *** Edit distance: the table of the two-row algorithm *)

(** The distance between two prefixes, which is what a cell of a row holds. *)
Definition prefix_distance (u v : str) : Z := lev (rev u) (rev v).

(** The row of the prefix [u] of the first string. *)
Definition row_of (u s2 : str) : list Z :=
  map (fun k => prefix_distance u (firstn k s2)) (seq 0 (S (length s2))).

(** *** Title matcher: the tolerance of the third stage *)

(** [ceil(0.2 * n)], the tolerance as the specification words it. *)
Definition fifth_ceil (n : Z) : Z := Qceiling ((2 # 10) * inject_Z n).

(** [floor(0.2 * n)] *)
Definition fifth_floor (n : Z) : Z := Qfloor ((2 # 10) * inject_Z n).

(** The third stage decides by the tolerance [tolerance]: on two titles
    that pass neither of the first two stages, the answer is whether the
    distance of the normalized titles is within
    [max(max_distance, tolerance(longer length))]. *)
Definition third_stage_decides (tolerance : Z -> Z) (title1 title2 : str) (max_distance : Z)
    : Prop :=
  let norm1 := strip (lower title1) in
  let norm2 := strip (lower title2) in
  exact_stage title1 title2 = false ->
  token_stage title1 title2 = false ->
  (fuzzy_title_match title1 title2 max_distance = true
   <-> calculate_levenshtein_distance norm1 norm2
       <= Z.max max_distance (tolerance (Z.max (len norm1) (len norm2)))).

(** *** Chunk matcher: the greedy assignment in the specification's words *)

Section Greedy.

(** [accept iou] says that an IoU is high enough. *)
Variable accept : Q -> bool.
Variable use_fuzzy_matching : bool.

(** A gold chunk the predicted chunk may be paired with. *)
Definition candidate (pred_chunk gold_chunk : Chunk) : Prop :=
  title_match use_fuzzy_matching pred_chunk gold_chunk = true
  /\ accept (calculate_iou pred_chunk gold_chunk) = true.

(** The winner for [pred_chunk] in [pool]: a candidate of the highest
    IoU, and the first of the pool among those. *)
Definition is_winner (pred_chunk : Chunk) (pool : list Chunk) (i : nat) (g : Chunk)
    : Prop :=
  pool !! i = Some g
  /\ candidate pred_chunk g
  /\ (forall j g', pool !! j = Some g' -> candidate pred_chunk g' ->
        (calculate_iou pred_chunk g' <= calculate_iou pred_chunk g)%Q)
  /\ (forall j g', (j < i)%nat -> pool !! j = Some g' -> candidate pred_chunk g' ->
        (calculate_iou pred_chunk g' < calculate_iou pred_chunk g)%Q).

(** Every predicted chunk, in order, finds a winner in what the earlier
    ones have left of the pool. *)
Inductive greedy_match : list Chunk -> list Chunk -> Prop :=
  | greedy_done pool : greedy_match [] pool
  | greedy_step pred_chunk rest pool i g :
      is_winner pred_chunk pool i g ->
      greedy_match rest (delete i pool) ->
      greedy_match (pred_chunk :: rest) pool.

(** What the chunk matcher answers on two lists. *)
Definition chunk_matcher_spec (answer : bool) (predicted gold : list Chunk) : Prop :=
  answer = true <-> (length predicted = length gold /\ greedy_match predicted gold).

End Greedy.

(** An IoU is accepted when it reaches the threshold... *)
Definition at_least (iou_threshold : Q) (iou : Q) : bool := Qle_bool iou_threshold iou.

(** ... and, in the function, when it is above zero as well. *)
Definition at_least_and_positive (iou_threshold : Q) (iou : Q) : bool :=
  Qle_bool iou_threshold iou && negb (Qle_bool iou 0).

(** The state of the inner loop after the part [seen] of the pool. *)
Definition scan_state (iou_threshold : Q) (use_fuzzy_matching : bool) (pred_chunk : Chunk)
    (seen : list Chunk) (st : option Chunk * Q) : Prop :=
  match fst st with
  | None =>
      snd st = 0%Q
      /\ forall j g, seen !! j = Some g ->
           ~ candidate (at_least_and_positive iou_threshold) use_fuzzy_matching pred_chunk g
  | Some b =>
      snd st = calculate_iou pred_chunk b
      /\ exists i,
           is_winner (at_least_and_positive iou_threshold) use_fuzzy_matching pred_chunk seen i b
  end.

(** A valid chunk list: no page range runs backwards. *)
Definition valid_chunks (chunks : list Chunk) : Prop :=
  Forall (fun c => start_page c <= end_page c) chunks.

(** *** Normalizer: the three forms of a diameter *)

(** Every way of cutting [s] at an occurrence of [sep]. *)
Fixpoint splits_at (sep : ascii) (s : str) : list (str * str) :=
  match s with
  | [] => []
  | c :: s' =>
      (if bool_decide (c = sep) then [([], s')] else [])
      ++ map (fun '(l, r) => (c :: l, r)) (splits_at sep s')
  end.

(** A number, as [float] reads one. *)
Definition is_number (s : str) : bool :=
  match parse_float s with Some _ => true | None => false end.

(** A pure fraction [N/D]. *)
Definition fraction_form (s : str) : bool :=
  existsb (fun '(n, d) => is_number n && is_number d) (splits_at "/" s).

(** A mixed number [W-N/D]. *)
Definition mixed_form (s : str) : bool :=
  existsb (fun '(w, r) => is_number w && fraction_form r) (splits_at "-" s).

(** One of the three forms: mixed number, pure fraction, plain decimal. *)
Definition parseable_diameter (s : str) : bool :=
  mixed_form s || fraction_form s || is_number s.

(** What [normalize_diameter] leaves of its argument before it reads it. *)
Definition clean_diameter (diameter : str) : str :=
  strip (replace s!"in" [] (replace s!"inch" [] (replace [dquote] [] (strip diameter)))).

(** The error the specification names; [float] and [int] raise [ValueError]
    on text they cannot read. *)
Definition FormatError : PyExc := ValueError.

(** The pieces of the cleaned string that the function hands to [float]:
    for a string with a hyphen, the text before the first hyphen and the
    first two pieces between slashes of the text up to the next hyphen;
    for one with a slash only, its first two pieces; else the string. *)
Inductive Reading : Type :=
  | ReadMixed (whole : str) (frac_parts : list str)
  | ReadFraction (frac_parts : list str)
  | ReadDecimal (s : str).

Definition reading (cleaned : str) : Reading :=
  if has_char "-" cleaned then
    match split_on "-" cleaned with
    | p0 :: p1 :: _ => ReadMixed p0 (split_on "/" p1)
    | _ => ReadDecimal cleaned
    end
  else if has_char "/" cleaned then ReadFraction (split_on "/" cleaned)
  else ReadDecimal cleaned.

(** The first failure met when the pieces are converted in the order of
    the function, if there is one. *)
Definition fraction_failure (frac_parts : list str) : option PyExc :=
  match frac_parts with
  | n :: rest =>
      if negb (is_number n) then Some ValueError
      else
        match rest with
        | d :: _ =>
            match parse_float d with
            | None => Some ValueError
            | Some f => if float_is_zero f then Some ZeroDivisionError else None
            end
        | [] => Some IndexError
        end
  | [] => Some IndexError
  end.

Definition reading_failure (r : Reading) : option PyExc :=
  match r with
  | ReadMixed whole frac_parts =>
      if negb (is_number whole) then Some ValueError else fraction_failure frac_parts
  | ReadFraction frac_parts => fraction_failure frac_parts
  | ReadDecimal s => if is_number s then None else Some ValueError
  end.

(** The exception of a result, if it is one. *)
Definition raised {A : Type} (r : result A) : option PyExc :=
  match r with
  | inl e => Some e
  | inr _ => None
  end.

(** *** Entities *)

(** The page of a normalized entity is an [int]. *)
Definition page_is_int (e : Entity) : bool :=
  match e !! "location_page"%string with
  | Some (VInt _) | None => true
  | Some _ => false
  end.

(** The field [field] is equal in the two entities when both define it. *)
Definition field_equal (field : string) (e1 e2 : Entity) : Prop :=
  forall v1 v2, e1 !! field = Some v1 -> e2 !! field = Some v2 -> py_eqb v1 v2 = true.

(** The pages are within one of each other when both are defined. *)
Definition pages_within_one (e1 e2 : Entity) : Prop :=
  forall p1 p2, e1 !! "location_page"%string = Some (VInt p1) ->
    e2 !! "location_page"%string = Some (VInt p2) -> Z.abs (p1 - p2) <= 1.

(** *** Normalizer: the error claims as the specification words them *)

(** [normalize_diameter] raises the format error, and nothing else, exactly
    on the strings that have none of the three forms. *)
Definition diameter_error_as_specified (diameter : str) : Prop :=
  raised (normalize_diameter diameter) = Some FormatError
  <-> parseable_diameter (clean_diameter diameter) = false.

(** A numeric page: an integer, a float, or a string that reads as a number. *)
Definition numeric_page (page : PyVal) : bool :=
  match page with
  | VInt _ | VFloat _ => true
  | VStr s => is_number s
  | VNone => false
  end.

(** [normalize_page_number] raises the format error exactly on the pages
    that are not numeric. *)
Definition page_error_as_specified (page : PyVal) : Prop :=
  raised (normalize_page_number page) = Some FormatError <-> numeric_page page = false.

(** A pipe, for the examples. *)
Definition sample_pipe : Entity :=
  <["type"%string := VStr s!"pipe"]>
    (<["material"%string := VStr s!"galvanized steel"]>
       (<["diameter"%string := VFloat (Fin 2)]>
          (<["schedule"%string := VStr s!"40"]>
             (<["location_page"%string := VInt 5]> ∅)))).

(** ** Definitions for the further properties *)

(** A string that does not begin with white space. *)
Definition starts_clean (s : str) : Prop :=
  match s with
  | c :: _ => isspace c = false
  | [] => True
  end.

(** Two page ranges that share no page. *)
Definition ranges_disjoint (a b : Chunk) : Prop :=
  end_page a < start_page b \/ end_page b < start_page a.

(** The chunks of [l] follow [prev] in page order: each runs forward and
    starts at most eleven pages after the one before it ends. *)
Fixpoint follows (prev : Chunk) (l : list Chunk) : Prop :=
  match l with
  | [] => True
  | c :: rest =>
      (start_page c <= end_page c /\ 0 <= start_page c - end_page prev - 1 <= 10)
      /\ follows c rest
  end.

Definition in_page_order (chunks : list Chunk) : Prop :=
  match chunks with
  | [] => True
  | c :: rest => start_page c <= end_page c /\ follows c rest
  end.

(** A pair that the chunk matcher may form. *)
Definition acceptable_pair (iou_threshold : Q) (use_fuzzy_matching : bool)
    (pred_chunk gold_chunk : Chunk) : Prop :=
  title_match use_fuzzy_matching pred_chunk gold_chunk = true
  /\ (iou_threshold <= calculate_iou pred_chunk gold_chunk)%Q
  /\ (0 < calculate_iou pred_chunk gold_chunk)%Q.

(** No field of the entity holds the not-a-number value. *)
Definition no_nan (e : Entity) : Prop :=
  forall k, e !! k <> Some (VFloat NaN).


(** The answer of [entities_match] where it returns one. *)
Definition match_bool (e1 e2 : Entity) : bool :=
  match entities_match e1 e2 with
  | inr b => b
  | inl _ => false
  end.

(** A character [normalize_material] can leave in its result: a word
    character that [str.lower] keeps, or the blank. *)
Definition material_char (c : ascii) : bool :=
  (isword c && bool_decide (lower_char c = c)) || bool_decide (c = " "%char).

(** The only white space of [s] is the blank, and no two blanks are next to
    each other; [after_blank] says that a blank precedes [s]. *)
Fixpoint single_blanks (after_blank : bool) (s : str) : bool :=
  match s with
  | [] => true
  | c :: s' =>
      if isspace c
      then bool_decide (c = " "%char) && negb after_blank && single_blanks true s'
      else single_blanks false s'
  end.

(** * Properties *)

(** ** Edit distance *)

Lemma len_nil {A : Type} : len (@nil A) = 0.
Proof. reflexivity. Qed.

Lemma len_cons {A : Type} (x : A) (l : list A) : len (x :: l) = len l + 1.
Proof. unfold len. simpl length. lia. Qed.

Lemma len_nonneg {A : Type} (l : list A) : 0 <= len l.
Proof. unfold len. lia. Qed.

Lemma len_app {A : Type} (l1 l2 : list A) : len (l1 ++ l2) = len l1 + len l2.
Proof. unfold len. rewrite length_app. lia. Qed.

Lemma len_rev {A : Type} (l : list A) : len (rev l) = len l.
Proof. unfold len. now rewrite length_rev. Qed.

Lemma neq_cost_bounds x y : 0 <= neq_cost x y <= 1.
Proof. unfold neq_cost. case_bool_decide; lia. Qed.

Lemma neq_cost_same x : neq_cost x x = 0.
Proof. unfold neq_cost. case_bool_decide; congruence. Qed.

Lemma neq_cost_sym x y : neq_cost x y = neq_cost y x.
Proof. unfold neq_cost. repeat case_bool_decide; congruence. Qed.

Lemma neq_cost_triangle x y z : neq_cost x z <= neq_cost x y + neq_cost y z.
Proof. unfold neq_cost. repeat case_bool_decide; try lia; congruence. Qed.

Lemma lev_nil_l b : lev [] b = len b.
Proof. destruct b; reflexivity. Qed.

Lemma lev_nil_r a : lev a [] = len a.
Proof. destruct a; reflexivity. Qed.

Lemma lev_cons x a y b :
  lev (x :: a) (y :: b)
  = Z.min (Z.min (lev a (y :: b) + 1) (lev (x :: a) b + 1)) (lev a b + neq_cost x y).
Proof. reflexivity. Qed.

Lemma lev_nonneg a b : 0 <= lev a b.
Proof.
  revert b. induction a as [|x a IHa]; intros b.
  - rewrite lev_nil_l. apply len_nonneg.
  - induction b as [|y b IHb].
    + rewrite lev_nil_r. apply len_nonneg.
    + rewrite lev_cons. pose proof (IHa (y :: b)). pose proof (IHa b).
      pose proof (neq_cost_bounds x y). lia.
Qed.

Lemma lev_sym a b : lev a b = lev b a.
Proof.
  revert b. induction a as [|x a IHa]; intros b.
  - now rewrite lev_nil_l, lev_nil_r.
  - induction b as [|y b IHb].
    + now rewrite lev_nil_l, lev_nil_r.
    + rewrite !lev_cons, (IHa (y :: b)), IHb, (IHa b), (neq_cost_sym x y). lia.
Qed.

Lemma lev_same a : lev a a = 0.
Proof.
  induction a as [|x a IHa]; [reflexivity|].
  rewrite lev_cons, IHa, neq_cost_same.
  pose proof (lev_nonneg a (x :: a)). pose proof (lev_nonneg (x :: a) a). lia.
Qed.

(** The distance is at least the difference of the lengths... *)
Lemma lev_length_lower b c : len c <= len b + lev b c.
Proof.
  revert c. induction b as [|y b IHb]; intros c.
  - rewrite lev_nil_l. rewrite len_nil. lia.
  - induction c as [|z c IHc].
    + rewrite lev_nil_r, len_nil. pose proof (len_nonneg (y :: b)). lia.
    + rewrite lev_cons. pose proof (IHb (z :: c)). pose proof (IHb c).
      pose proof (neq_cost_bounds y z). rewrite !len_cons in *. lia.
Qed.

(** ... and at most their sum. *)
Lemma lev_length_upper a c : lev a c <= len a + len c.
Proof.
  revert c. induction a as [|x a IHa]; intros c.
  - rewrite lev_nil_l, len_nil. lia.
  - destruct c as [|z c].
    + rewrite lev_nil_r, len_nil. lia.
    + rewrite lev_cons. pose proof (IHa (z :: c)). rewrite !len_cons in *. lia.
Qed.

Lemma lev_triangle_bounded (n : nat) :
  forall a b c, (length a + length b + length c <= n)%nat ->
  lev a c <= lev a b + lev b c.
Proof.
  induction n as [|n IH]; intros a b c Hn.
  - destruct a, b, c; simpl in Hn; try lia. rewrite !lev_nil_l, len_nil. lia.
  - destruct a as [|x a].
    { rewrite !lev_nil_l. apply lev_length_lower. }
    destruct c as [|z c].
    { rewrite !lev_nil_r. rewrite (lev_sym (x :: a) b).
      pose proof (lev_length_lower b (x :: a)). lia. }
    destruct b as [|y b].
    { rewrite lev_nil_r, lev_nil_l. apply lev_length_upper. }
    simpl in Hn.
    assert (H1 : lev a (z :: c) <= lev a (y :: b) + lev (y :: b) (z :: c))
      by (apply IH; simpl; lia).
    assert (H2 : lev (x :: a) c <= lev (x :: a) (y :: b) + lev (y :: b) c)
      by (apply IH; simpl; lia).
    assert (H3 : lev (x :: a) (z :: c) <= lev (x :: a) b + lev b (z :: c))
      by (apply IH; simpl; lia).
    assert (H4 : lev (x :: a) c <= lev (x :: a) b + lev b c)
      by (apply IH; simpl; lia).
    assert (H5 : lev a (z :: c) <= lev a b + lev b (z :: c))
      by (apply IH; simpl; lia).
    assert (H6 : lev a c <= lev a b + lev b c)
      by (apply IH; simpl; lia).
    pose proof (neq_cost_triangle x y z) as Hc.
    pose proof (neq_cost_bounds x y). pose proof (neq_cost_bounds y z).
    rewrite (lev_cons x a z c).
    rewrite (lev_cons x a y b) in *. rewrite (lev_cons y b z c) in *.
    rewrite (lev_cons x a z c) in H3.
    lia.
Qed.

Lemma lev_triangle a b c : lev a c <= lev a b + lev b c.
Proof. exact (lev_triangle_bounded _ a b c (Nat.le_refl _)). Qed.

Lemma enumerate_from_snoc {A : Type} (i : nat) (l : list A) (x : A) :
  enumerate_from i (l ++ [x]) = enumerate_from i l ++ [((i + length l)%nat, x)].
Proof.
  revert i. induction l as [|y l IH]; intros i; simpl.
  - now rewrite Nat.add_0_r.
  - rewrite IH. now replace (i + S (length l))%nat with (S i + length l)%nat by lia.
Qed.

Lemma nth_map_seq {A : Type} (f : nat -> A) (n k : nat) (d : A) :
  (k < n)%nat -> nth k (map f (seq 0 n)) d = f k.
Proof.
  intros Hk. rewrite (nth_indep _ d (f 0%nat)) by now rewrite length_map, length_seq.
  rewrite (map_nth f (seq 0 n) 0%nat k). now rewrite seq_nth.
Qed.

Lemma map_seq_snoc {A : Type} (f : nat -> A) (n : nat) :
  map f (seq 0 (S n)) = map f (seq 0 n) ++ [f n].
Proof. now rewrite seq_S, map_app. Qed.

Lemma prefix_distance_snoc u c1 p c2 :
  prefix_distance (u ++ [c1]) (p ++ [c2])
  = Z.min (Z.min (prefix_distance u (p ++ [c2]) + 1)
                 (prefix_distance (u ++ [c1]) p + 1))
          (prefix_distance u p + neq_cost c1 c2).
Proof. unfold prefix_distance. rewrite !rev_unit. apply lev_cons. Qed.

(** The inner loop, read up to a prefix [p] of the second string. *)
Lemma inner_loop_row c1 u p q :
  fold_left (inner_step c1 (row_of u (p ++ q))) (enumerate p) [Z.of_nat (length u) + 1]
  = map (fun k => prefix_distance (u ++ [c1]) (firstn k (p ++ q))) (seq 0 (S (length p))).
Proof.
  revert q. induction p as [|c2 p IH] using rev_ind; intros q.
  - simpl. unfold prefix_distance. rewrite rev_unit. simpl rev.
    rewrite lev_nil_r, len_cons, len_rev. reflexivity.
  - unfold enumerate in *. rewrite enumerate_from_snoc, fold_left_app. cbn [fold_left].
    rewrite <- app_assoc. cbn [app]. rewrite IH. change (0 + length p)%nat with (length p).
    assert (Hlen : (length p < length (p ++ c2 :: q))%nat)
      by (rewrite length_app; simpl; lia).
    assert (Hp : firstn (length p) (p ++ c2 :: q) = p).
    { rewrite firstn_app, Nat.sub_diag, firstn_all. simpl. apply app_nil_r. }
    assert (Hp' : firstn (S (length p)) (p ++ c2 :: q) = p ++ [c2]).
    { rewrite firstn_app, firstn_all2 by lia.
      replace (S (length p) - length p)%nat with 1%nat by lia. reflexivity. }
    replace (length (p ++ [c2])) with (S (length p)) by (rewrite length_app; simpl; lia).
    rewrite (map_seq_snoc _ (S (length p))). unfold inner_step. f_equal. f_equal.
    unfold row_of. rewrite !nth_map_seq by lia.
    rewrite Hp, Hp'. symmetry. apply prefix_distance_snoc.
Qed.

Lemma range_row_is_row s2 : range_row (S (length s2)) = row_of [] s2.
Proof.
  unfold range_row, row_of. apply map_ext_in. intros k Hk. apply in_seq in Hk.
  unfold prefix_distance. simpl rev. rewrite lev_nil_l, len_rev. unfold len.
  rewrite length_firstn. f_equal. lia.
Qed.

Lemma outer_loop_row s1 s2 :
  fold_left (outer_step s2) (enumerate s1) (range_row (S (length s2))) = row_of s1 s2.
Proof.
  induction s1 as [|c1 u IH] using rev_ind.
  - apply range_row_is_row.
  - unfold enumerate in *. rewrite enumerate_from_snoc, fold_left_app, IH. simpl.
    pose proof (inner_loop_row c1 u s2 []) as H. rewrite app_nil_r in H. exact H.
Qed.

Lemma last_row u s2 : List.last (row_of u s2) 0 = prefix_distance u s2.
Proof.
  unfold row_of. rewrite map_seq_snoc, last_last. now rewrite firstn_all.
Qed.

Lemma levenshtein_rows_distance s1 s2 : levenshtein_rows s1 s2 = prefix_distance s1 s2.
Proof.
  unfold levenshtein_rows. destruct (len s2 =? 0) eqn:E.
  - apply Z.eqb_eq in E. destruct s2; [|rewrite len_cons in E; pose proof (len_nonneg s2); lia].
    unfold prefix_distance. simpl. now rewrite lev_nil_r, len_rev.
  - rewrite outer_loop_row. apply last_row.
Qed.

(** The function computes the edit distance of the reversed strings,
    whichever way round the lengths are. *)
Lemma calculate_levenshtein_distance_lev s1 s2 :
  calculate_levenshtein_distance s1 s2 = lev (rev s1) (rev s2).
Proof.
  unfold calculate_levenshtein_distance. destruct (len s1 <? len s2).
  - rewrite levenshtein_rows_distance. unfold prefix_distance. apply lev_sym.
  - apply levenshtein_rows_distance.
Qed.

(** C8. [calculate_levenshtein_distance] is a metric on strings: it is
    symmetric, zero on two identical strings, never negative, and it
    satisfies the triangle inequality. *)
Theorem levenshtein_metric :
  (forall a b, calculate_levenshtein_distance a b = calculate_levenshtein_distance b a)
  /\ (forall a, calculate_levenshtein_distance a a = 0)
  /\ (forall a b, 0 <= calculate_levenshtein_distance a b)
  /\ (forall a b c,
        calculate_levenshtein_distance a c
        <= calculate_levenshtein_distance a b + calculate_levenshtein_distance b c).
Proof.
  repeat split; intros; rewrite ?calculate_levenshtein_distance_lev.
  - apply lev_sym.
  - apply lev_same.
  - apply lev_nonneg.
  - apply lev_triangle.
Qed.

(** ** Title matcher *)

Lemma isspace_lower_char c : isspace c = true -> lower_char c = c.
Proof.
  destruct c as [b0 b1 b2 b3 b4 b5 b6 b7].
  destruct b0, b1, b2, b3, b4, b5, b6, b7; vm_compute; congruence.
Qed.

Lemma lstrip_blank s : forallb isspace s = true -> lstrip s = [].
Proof.
  induction s as [|c s IH]; simpl; [reflexivity|].
  intros H. apply andb_true_iff in H as [Hc Hs]. rewrite Hc. auto.
Qed.

Lemma lower_blank s : forallb isspace s = true -> lower s = s.
Proof.
  induction s as [|c s IH]; simpl; [reflexivity|].
  intros H. apply andb_true_iff in H as [Hc Hs].
  now rewrite (isspace_lower_char c Hc), IH.
Qed.

(** A title made of white space only normalizes to the empty string. *)
Lemma strip_lower_blank s : forallb isspace s = true -> strip (lower s) = [].
Proof.
  intros H. rewrite (lower_blank s H). unfold strip. now rewrite (lstrip_blank s H).
Qed.

Lemma fuzzy_title_match_empty_norm title1 title2 max_distance :
  strip (lower title1) = [] -> fuzzy_title_match title1 title2 max_distance = true.
Proof.
  intros H. unfold fuzzy_title_match. rewrite H.
  destruct (str_eqb [] (strip (lower title2))); reflexivity.
Qed.

(** C10. An empty first title matches every title, and so does a first
    title made of white space only: it normalizes to no token at all, and
    the token containment test holds of an empty list of tokens. *)
Theorem empty_title_matches_every_title :
  (forall t max_distance, fuzzy_title_match [] t max_distance = true)
  /\ (forall title1 t max_distance,
        forallb isspace title1 = true -> fuzzy_title_match title1 t max_distance = true).
Proof.
  split.
  - intros t max_distance. now apply fuzzy_title_match_empty_norm.
  - intros title1 t max_distance H.
    apply fuzzy_title_match_empty_norm, strip_lower_blank, H.
Qed.

Lemma empty_title_matches_every_title_witness :
  forallb isspace s!"  " = true
  /\ fuzzy_title_match s!"  " s!"Material Specifications" default_max_distance = true.
Proof.
  split; [reflexivity|].
  apply (proj2 empty_title_matches_every_title). reflexivity.
Defined.

Lemma fifth_floor_quotient n : fifth_floor n = n / 5.
Proof.
  unfold fifth_floor, Qfloor. cbn [Qmult inject_Z Qnum Qden Pos.mul].
  change (Z.pos (10 * 1)) with (2 * 5). now rewrite Z.div_mul_cancel_l by lia.
Qed.

Lemma fuzzy_title_match_third_stage title1 title2 max_distance :
  exact_stage title1 title2 = false ->
  token_stage title1 title2 = false ->
  fuzzy_title_match title1 title2 max_distance
  = (calculate_levenshtein_distance (strip (lower title1)) (strip (lower title2))
     <=? Z.max max_distance
           (int_of_fifth (Z.max (len (strip (lower title1))) (len (strip (lower title2)))))).
Proof.
  unfold exact_stage, token_stage, fuzzy_title_match. intros -> ->. reflexivity.
Qed.

(** C3, as the specification words it, fails: two titles of sixteen
    characters that differ in four of them pass no stage, although four is
    within [max(3, ceil(0.2 * 16))]. *)
Lemma third_stage_ceil_counterexample :
  ~ third_stage_decides fifth_ceil s!"abcdefghijklmnop" s!"wxyzefghijklmnop" 3.
Proof.
  unfold third_stage_decides. intros H.
  assert (Hm : fuzzy_title_match s!"abcdefghijklmnop" s!"wxyzefghijklmnop" 3 = true).
  { apply H; [reflexivity | reflexivity | vm_compute; discriminate]. }
  vm_compute in Hm. discriminate.
Qed.

(** C3, amended. On two titles that pass neither the exact nor the token
    stage, [fuzzy_title_match] answers true exactly when the distance of
    the lowercased, trimmed titles is at most
    [max(max_distance, floor(0.2 * length of the longer one))]. *)
Theorem third_stage_floor title1 title2 max_distance :
  third_stage_decides fifth_floor title1 title2 max_distance.
Proof.
  unfold third_stage_decides. intros Hexact Htoken.
  rewrite (fuzzy_title_match_third_stage _ _ _ Hexact Htoken).
  rewrite fifth_floor_quotient. unfold int_of_fifth. apply Z.leb_le.
Qed.

Lemma third_stage_floor_witness :
  fuzzy_title_match s!"abcdefghijklmnop" s!"wxyzefghijklmnop" 3 = true
  <-> calculate_levenshtein_distance
        (strip (lower s!"abcdefghijklmnop")) (strip (lower s!"wxyzefghijklmnop"))
      <= Z.max 3 (fifth_floor (Z.max (len (strip (lower s!"abcdefghijklmnop")))
                                     (len (strip (lower s!"wxyzefghijklmnop"))))).
Proof. apply (third_stage_floor s!"abcdefghijklmnop" s!"wxyzefghijklmnop" 3); reflexivity. Defined.

(** ** Normalizer *)

(** C2. [normalize_material] is not idempotent: the function trims before
    it turns hyphens into blanks and drops punctuation, so a blank that
    these steps leave at an end of the string survives the first pass and
    is trimmed by the second. *)
Theorem normalize_material_twice_differs :
  normalize_material s!"-steel" = s!" steel"
  /\ normalize_material (normalize_material s!"-steel") = s!"steel"
  /\ normalize_material (normalize_material s!"-steel") <> normalize_material s!"-steel".
Proof. repeat split; vm_compute; congruence. Qed.

Lemma split_on_cons sep s : exists seg rest, split_on sep s = seg :: rest.
Proof.
  induction s as [|c s [seg [rest IH]]]; simpl; [eauto|].
  rewrite IH. case_bool_decide; eauto.
Qed.

(** A string that holds the separator splits into two pieces at least. *)
Lemma split_on_has_char sep s :
  has_char sep s = true -> exists p0 p1 rest, split_on sep s = p0 :: p1 :: rest.
Proof.
  unfold has_char. induction s as [|c s IH]; simpl; [discriminate|].
  intros H. destruct (split_on_cons sep s) as [seg [rest E]]. rewrite E.
  case_bool_decide as Hc; [eauto|].
  simpl in H. destruct (IH H) as [p0 [p1 [rest' E']]].
  rewrite E in E'. inversion E'; subst. eauto.
Qed.

Lemma raised_py_float s :
  raised (py_float s) = if is_number s then None else Some ValueError.
Proof. unfold py_float, is_number. now destruct (parse_float s). Qed.

Ltac run_result := cbn [bind ret raise index nth_error raised negb].

Lemma fraction_raised frac_parts (k : PyFloat -> result PyFloat) :
  (forall f, raised (k f) = None) ->
  raised (f0 <- index frac_parts 0 ;;
          numerator <- py_float f0 ;;
          f1 <- index frac_parts 1 ;;
          denominator <- py_float f1 ;;
          fraction <- float_div numerator denominator ;;
          k fraction)
  = fraction_failure frac_parts.
Proof.
  intros Hk. destruct frac_parts as [|n rest]; [reflexivity|].
  unfold fraction_failure, py_float, is_number. run_result.
  destruct (parse_float n) as [fn|]; [|reflexivity]. run_result.
  destruct rest as [|d rest]; [reflexivity|]. run_result.
  destruct (parse_float d) as [fd|]; [|reflexivity]. run_result.
  unfold float_div. destruct (float_is_zero fd); [reflexivity|]. run_result. apply Hk.
Qed.

Lemma fraction_raised_tail frac_parts :
  raised (f0 <- index frac_parts 0 ;;
          numerator <- py_float f0 ;;
          f1 <- index frac_parts 1 ;;
          denominator <- py_float f1 ;;
          float_div numerator denominator)
  = fraction_failure frac_parts.
Proof.
  destruct frac_parts as [|n rest]; [reflexivity|].
  unfold fraction_failure, py_float, is_number. run_result.
  destruct (parse_float n) as [fn|]; [|reflexivity]. run_result.
  destruct rest as [|d rest]; [reflexivity|]. run_result.
  destruct (parse_float d) as [fd|]; [|reflexivity]. run_result.
  unfold float_div. destruct (float_is_zero fd); reflexivity.
Qed.

(** The exception of [normalize_diameter], if any, is the first failure of
    the reading of the cleaned string. *)
Lemma normalize_diameter_raised diameter :
  raised (normalize_diameter diameter) = reading_failure (reading (clean_diameter diameter)).
Proof.
  unfold normalize_diameter, reading. fold (clean_diameter diameter).
  set (d := clean_diameter diameter).
  destruct (has_char "-" d) eqn:Hh.
  - destruct (split_on_has_char _ _ Hh) as [p0 [p1 [rest E]]]. rewrite E.
    cbn [index nth_error bind ret reading_failure].
    unfold py_float at 1, is_number at 1.
    destruct (parse_float p0) as [w|]; [|reflexivity]. run_result.
    now rewrite (fraction_raised (split_on "/" p1) (fun fr => ret (float_add w fr))).
  - destruct (has_char "/" d) eqn:Hs.
    + cbn [reading_failure]. apply fraction_raised_tail.
    + cbn [reading_failure]. apply raised_py_float.
Qed.

Lemma split_on_absent sep s : has_char sep s = false -> split_on sep s = [s].
Proof.
  unfold has_char. induction s as [|c s IH]; simpl; [reflexivity|].
  intros H. apply orb_false_iff in H as [Hc Hs]. now rewrite (IH Hs), Hc.
Qed.

Lemma split_on_first sep a b :
  has_char sep a = false -> split_on sep (a ++ sep :: b) = a :: split_on sep b.
Proof.
  unfold has_char. induction a as [|c a IH]; simpl.
  - intros _. destruct (split_on_cons sep b) as [seg [rest E]]. rewrite E.
    now rewrite bool_decide_eq_true_2.
  - intros H. apply orb_false_iff in H as [Hc Ha]. now rewrite (IH Ha), Hc.
Qed.

Lemma has_char_app sep a b : has_char sep (a ++ b) = has_char sep a || has_char sep b.
Proof. unfold has_char. apply existsb_app. Qed.

Lemma has_char_cons sep c b :
  has_char sep (c :: b) = bool_decide (c = sep) || has_char sep b.
Proof. reflexivity. Qed.

Lemma has_char_here sep b : has_char sep (sep :: b) = true.
Proof. unfold has_char. simpl. now rewrite bool_decide_eq_true_2. Qed.

Section Forms.

Variables (w n d : str) (fw fn fd : PyFloat).
Hypothesis read_w : parse_float w = Some fw.
Hypothesis read_n : parse_float n = Some fn.
Hypothesis read_d : parse_float d = Some fd.
Hypothesis w_plain : has_char "-" w = false.
Hypothesis n_plain : has_char "-" n = false /\ has_char "/" n = false.
Hypothesis d_plain : has_char "-" d = false /\ has_char "/" d = false.

Lemma hyphen_absent : has_char "-" (n ++ "/"%char :: d) = false.
Proof using n_plain d_plain.
  rewrite has_char_app, has_char_cons, bool_decide_eq_false_2 by discriminate.
  destruct n_plain as [-> _]. now destruct d_plain as [-> _].
Qed.

Lemma fraction_value :
  (f0 <- index (split_on "/" (n ++ "/"%char :: d)) 0 ;;
   numerator <- py_float f0 ;;
   f1 <- index (split_on "/" (n ++ "/"%char :: d)) 1 ;;
   denominator <- py_float f1 ;;
   float_div numerator denominator)
  = float_div fn fd.
Proof using read_n read_d n_plain d_plain.
  rewrite split_on_first, split_on_absent by tauto.
  unfold py_float. run_result. rewrite read_n. run_result. now rewrite read_d.
Qed.

(** A mixed number [W-N/D] is read as [W + N/D]. *)
Lemma normalize_diameter_mixed diameter :
  clean_diameter diameter = w ++ "-"%char :: n ++ "/"%char :: d ->
  normalize_diameter diameter
  = (fraction <- float_div fn fd ;; ret (float_add fw fraction)).
Proof using All.
  intros E. unfold normalize_diameter. fold (clean_diameter diameter). rewrite E.
  rewrite has_char_app, has_char_here, orb_true_r.
  rewrite split_on_first by assumption.
  rewrite (split_on_absent _ _ hyphen_absent). unfold py_float at 1. run_result. rewrite read_w. run_result.
  rewrite split_on_first, split_on_absent by tauto.
  unfold py_float. run_result. rewrite read_n. run_result. now rewrite read_d.
Qed.

(** A pure fraction [N/D] is read as [N/D]. *)
Lemma normalize_diameter_fraction diameter :
  clean_diameter diameter = n ++ "/"%char :: d ->
  normalize_diameter diameter = float_div fn fd.
Proof using read_n read_d n_plain d_plain.
  intros E. unfold normalize_diameter. fold (clean_diameter diameter). rewrite E.
  rewrite hyphen_absent, has_char_app, has_char_here, orb_true_r. apply fraction_value.
Qed.

(** A plain decimal is read as itself. *)
Lemma normalize_diameter_decimal diameter :
  clean_diameter diameter = d -> normalize_diameter diameter = ret fd.
Proof using read_d d_plain.
  intros E. unfold normalize_diameter. fold (clean_diameter diameter). rewrite E.
  destruct d_plain as [-> ->]. unfold py_float. now rewrite read_d.
Qed.

End Forms.

Lemma int_page_spec z : normalize_page_number (VInt z) = ret (int_page z).
Proof. reflexivity. Qed.

Lemma normalize_page_number_str s :
  raised (normalize_page_number (VStr s)) = Some ValueError <-> parse_int (strip s) = None.
Proof.
  simpl. destruct (parse_int (strip s)); simpl; split; congruence.
Qed.

(** C4, as the specification words it, fails.  ["1-2"] has none of the
    three forms and raises [IndexError]; ["1-1/2-7"] has none of them
    either and is read as 1.5; and the page ["2.5"] is a numeric string
    and raises. *)
Lemma format_error_counterexample :
  ~ diameter_error_as_specified s!"1-2"
  /\ ~ diameter_error_as_specified s!"1-1/2-7"
  /\ ~ page_error_as_specified (VStr s!"2.5").
Proof.
  unfold diameter_error_as_specified, page_error_as_specified.
  repeat split; intros [H1 H2].
  - specialize (H2 eq_refl). vm_compute in H2. discriminate.
  - specialize (H2 eq_refl). vm_compute in H2. discriminate.
  - specialize (H1 eq_refl). vm_compute in H1. discriminate.
Qed.

(** C4, amended.  [normalize_diameter] cleans its argument and reads what
    is left piece by piece; it raises exactly when a piece fails, with
    [ValueError] for a piece that [float] rejects, [IndexError] for a
    hyphen with no slash after it and [ZeroDivisionError] for a zero
    denominator.  On a mixed number, a pure fraction or a plain decimal
    whose numbers hold neither hyphen nor slash it returns [W + N/D],
    [N/D] or the decimal, unless the denominator is zero.
    [normalize_page_number] raises [ValueError] on a string exactly when
    [int] cannot read it, returns every [int] as it is, and raises
    [TypeError] on [None]. *)
Theorem normalize_errors :
  (forall diameter,
     raised (normalize_diameter diameter)
     = reading_failure (reading (clean_diameter diameter)))
  /\ (forall diameter e, raised (normalize_diameter diameter) = Some e ->
        e = ValueError \/ e = IndexError \/ e = ZeroDivisionError)
  /\ (forall diameter w n d fw fn fd,
        parse_float w = Some fw -> parse_float n = Some fn -> parse_float d = Some fd ->
        has_char "-" w = false ->
        has_char "-" n = false /\ has_char "/" n = false ->
        has_char "-" d = false /\ has_char "/" d = false ->
        (clean_diameter diameter = w ++ "-"%char :: n ++ "/"%char :: d ->
         normalize_diameter diameter
         = (fraction <- float_div fn fd ;; ret (float_add fw fraction)))
        /\ (clean_diameter diameter = n ++ "/"%char :: d ->
            normalize_diameter diameter = float_div fn fd)
        /\ (clean_diameter diameter = d -> normalize_diameter diameter = ret fd))
  /\ (forall s, raised (normalize_page_number (VStr s)) = Some ValueError
                <-> parse_int (strip s) = None)
  /\ (forall z, normalize_page_number (VInt z) = ret z)
  /\ normalize_page_number VNone = raise TypeError.
Proof.
  split; [exact normalize_diameter_raised|].
  split.
  { intros diameter e. rewrite normalize_diameter_raised.
    destruct (reading (clean_diameter diameter)) as [whole fp|fp|s]; cbn [reading_failure].
    - destruct (negb (is_number whole)); [intros [= <-]; tauto|].
      unfold fraction_failure. destruct fp as [|a [|b fp]];
        repeat match goal with
        | |- context [if ?c then _ else _] => destruct c
        | |- context [match parse_float ?x with _ => _ end] => destruct (parse_float x)
        end; intros [= <-]; tauto.
    - unfold fraction_failure. destruct fp as [|a [|b fp]];
        repeat match goal with
        | |- context [if ?c then _ else _] => destruct c
        | |- context [match parse_float ?x with _ => _ end] => destruct (parse_float x)
        end; intros [= <-]; tauto.
    - destruct (is_number s); intros [= <-]; tauto. }
  split.
  { intros diameter w n d fw fn fd Hw Hn Hd Pw Pn Pd. repeat split.
    - eapply normalize_diameter_mixed; eassumption.
    - eapply normalize_diameter_fraction; eassumption.
    - eapply normalize_diameter_decimal; eassumption. }
  split; [exact normalize_page_number_str|].
  split; reflexivity.
Qed.

Lemma normalize_errors_witness :
  normalize_diameter (s!"1-1/2" ++ [dquote])
  = (fraction <- float_div (Fin 1) (Fin 2) ;; ret (float_add (Fin 1) fraction)).
Proof.
  refine (proj1 (proj1 (proj2 (proj2 normalize_errors))
                   (s!"1-1/2" ++ [dquote]) s!"1" s!"1" s!"2" (Fin 1) (Fin 1) (Fin 2)
                   _ _ _ _ _ _) _);
    vm_compute; tauto.
Defined.

(** ** Chunk matcher *)

Lemma Qle_bool_false x y : Qle_bool x y = false <-> (y < x)%Q.
Proof.
  split.
  - intros H. apply Qnot_le_lt. intros Hle. apply Qle_bool_iff in Hle. congruence.
  - intros H. destruct (Qle_bool x y) eqn:E; [|reflexivity].
    apply Qle_bool_iff in E. exfalso. exact (Qlt_not_le _ _ H E).
Qed.

Lemma ratio_or_zero_bounds n d :
  0 <= n -> (0 < d -> n <= d) -> (0 <= ratio_or_zero n d <= 1)%Q.
Proof.
  unfold ratio_or_zero. intros Hn Hd. destruct (0 <? d) eqn:E.
  - apply Z.ltb_lt in E. specialize (Hd E).
    unfold Qle. simpl. rewrite Z2Pos.id by lia. lia.
  - split; unfold Qle; simpl; lia.
Qed.

Lemma ratio_or_zero_whole n : 0 < n -> (1 <= ratio_or_zero n n)%Q.
Proof.
  intros Hn. unfold ratio_or_zero. rewrite (proj2 (Z.ltb_lt 0 n) Hn).
  unfold Qle. simpl. rewrite Z2Pos.id by lia. lia.
Qed.

(** An IoU lies between 0 and 1. *)
Lemma calculate_iou_bounds p g : (0 <= calculate_iou p g <= 1)%Q.
Proof.
  unfold calculate_iou, calculate_iou_advanced, int_page. cbn [fst].
  apply ratio_or_zero_bounds; lia.
Qed.

(** A chunk whose range does not run backwards overlaps itself fully. *)
Lemma calculate_iou_self c : start_page c <= end_page c -> (1 <= calculate_iou c c)%Q.
Proof.
  intros H. unfold calculate_iou, calculate_iou_advanced, int_page. cbn [fst].
  rewrite Z.max_id, Z.min_id.
  replace (Z.max 0 (end_page c - start_page c + 1)) with (end_page c - start_page c + 1)
    by lia.
  replace (end_page c - start_page c + 1 + (end_page c - start_page c + 1)
           - (end_page c - start_page c + 1))
    with (end_page c - start_page c + 1) by lia.
  apply ratio_or_zero_whole. lia.
Qed.

Lemma str_eqb_refl s : str_eqb s s = true.
Proof. unfold str_eqb. now apply bool_decide_eq_true_2. Qed.

Lemma title_match_refl use_fuzzy_matching c : title_match use_fuzzy_matching c c = true.
Proof.
  unfold title_match, fuzzy_title_match. destruct use_fuzzy_matching.
  - now rewrite str_eqb_refl.
  - apply str_eqb_refl.
Qed.

Lemma chunk_eqb_eq a b : chunk_eqb a b = true <-> a = b.
Proof.
  unfold chunk_eqb, str_eqb. destruct a as [ta sa ea], b as [tb sb eb]. cbn.
  rewrite !andb_true_iff, bool_decide_eq_true, !Z.eqb_eq.
  split; [intros [[-> ->] ->]; reflexivity | intros [= -> -> ->]; auto].
Qed.

Lemma list_remove_first b pool :
  forall i, pool !! i = Some b ->
  (forall j g, (j < i)%nat -> pool !! j = Some g -> g <> b) ->
  list_remove b pool = delete i pool.
Proof.
  induction pool as [|y pool IH]; intros i Hi Hfirst; [discriminate|].
  destruct i as [|i]; simpl in *.
  - injection Hi as ->. now rewrite (proj2 (chunk_eqb_eq b b) eq_refl).
  - destruct (chunk_eqb y b) eqn:E.
    + apply chunk_eqb_eq in E. exfalso. apply (Hfirst 0%nat y); [lia|reflexivity|exact E].
    + f_equal. apply IH; [exact Hi|].
      intros j g Hj Hg. apply (Hfirst (S j) g); [lia|exact Hg].
Qed.

Section Matching.

Variables (iou_threshold : Q) (use_fuzzy_matching : bool).

Lemma accept_iff q :
  at_least_and_positive iou_threshold q = true <-> (iou_threshold <= q /\ 0 < q)%Q.
Proof.
  unfold at_least_and_positive.
  rewrite andb_true_iff, negb_true_iff, Qle_bool_iff, Qle_bool_false. reflexivity.
Qed.

(** A predicted chunk has one winner at most. *)
Lemma winner_unique (acc : Q -> bool) p pool i g i' g' :
  is_winner acc use_fuzzy_matching p pool i g ->
  is_winner acc use_fuzzy_matching p pool i' g' ->
  i = i' /\ g = g'.
Proof.
  intros (Hi & Hc & Hmax & Hfirst) (Hi' & Hc' & Hmax' & Hfirst').
  destruct (lt_eq_lt_dec i i') as [[Hlt|Heq]|Hgt].
  - exfalso. exact (Qlt_not_le _ _ (Hfirst' i g Hlt Hi Hc) (Hmax i' g' Hi' Hc')).
  - subst i'. split; congruence.
  - exfalso. exact (Qlt_not_le _ _ (Hfirst i' g' Hgt Hi' Hc') (Hmax' i g Hi Hc)).
Qed.

(** Removing the winner by value removes it at its place. *)
Lemma list_remove_winner (acc : Q -> bool) p pool i g :
  is_winner acc use_fuzzy_matching p pool i g -> list_remove g pool = delete i pool.
Proof.
  intros (Hi & Hc & Hmax & Hfirst). apply list_remove_first; [exact Hi|].
  intros j g' Hj Hg' ->. exact (Qlt_irrefl _ (Hfirst j g Hj Hg' Hc)).
Qed.

(** One turn of the inner loop keeps the loop's state right. *)
Lemma scan_state_step p seen best score g :
  scan_state iou_threshold use_fuzzy_matching p seen (best, score) ->
  scan_state iou_threshold use_fuzzy_matching p (seen ++ [g])
    (if title_match use_fuzzy_matching p g
     then if Qle_bool iou_threshold (calculate_iou p g)
             && negb (Qle_bool (calculate_iou p g) score)
          then (Some g, calculate_iou p g)
          else (best, score)
     else (best, score)).
Proof.
  unfold scan_state. cbn [fst snd]. intros St.
  destruct (title_match use_fuzzy_matching p g) eqn:Ht.
  2:{ (* the title does not match: [g] is no candidate *)
    destruct best as [b|]; cbn [fst snd] in *.
    - destruct St as [Hs [i (Hi & Hc & Hmax & Hfirst)]]. split; [exact Hs|].
      exists i. split; [|split; [exact Hc|split]].
      + now apply lookup_app_l_Some.
      + intros j g' Hj Hc'. apply lookup_snoc_Some in Hj as [[_ Hj]|[_ <-]]; [eauto|].
        destruct Hc' as [Ht' _]. congruence.
      + intros j g' Hlt Hj Hc'. apply lookup_snoc_Some in Hj as [[_ Hj]|[_ <-]]; [eauto|].
        destruct Hc' as [Ht' _]. congruence.
    - destruct St as [Hs Hnone]. split; [exact Hs|].
      intros j g' Hj Hc'.
      apply lookup_snoc_Some in Hj as [[_ Hj]|[_ <-]]; [exact (Hnone _ _ Hj Hc')|].
      destruct Hc' as [Ht' _]. congruence. }
  destruct (Qle_bool iou_threshold (calculate_iou p g)
            && negb (Qle_bool (calculate_iou p g) score)) eqn:Hup; cbn [fst snd].
  - (* [g] becomes the best match *)
    apply andb_true_iff in Hup as [Hthr Hgt].
    apply Qle_bool_iff in Hthr. apply negb_true_iff, Qle_bool_false in Hgt.
    split; [reflexivity|]. exists (length seen).
    assert (Hpos : (0 < calculate_iou p g)%Q).
    { destruct best as [b|]; cbn [fst snd] in St.
      - destruct St as [Hs _]. rewrite Hs in Hgt.
        eapply Qle_lt_trans; [apply (calculate_iou_bounds p b)|exact Hgt].
      - destruct St as [Hs _]. now rewrite Hs in Hgt. }
    assert (Hcg : candidate (at_least_and_positive iou_threshold) use_fuzzy_matching p g).
    { split; [exact Ht|]. apply accept_iff. tauto. }
    assert (Hbelow : forall j g', seen !! j = Some g' ->
              candidate (at_least_and_positive iou_threshold) use_fuzzy_matching p g' ->
              (calculate_iou p g' < calculate_iou p g)%Q).
    { intros j g' Hj Hc'. destruct best as [b|]; cbn [fst snd] in St.
      - destruct St as [Hs [i (Hi & Hc & Hmax & Hfirst)]]. rewrite Hs in Hgt.
        eapply Qle_lt_trans; [exact (Hmax j g' Hj Hc')|exact Hgt].
      - destruct St as [_ Hnone]. exfalso. exact (Hnone j g' Hj Hc'). }
    split; [|split; [exact Hcg|split]].
    + now apply list_lookup_middle.
    + intros j g' Hj Hc'. apply lookup_snoc_Some in Hj as [[_ Hj]|[_ <-]].
      * apply Qlt_le_weak. eauto.
      * apply Qle_refl.
    + intros j g' Hlt Hj Hc'. apply lookup_snoc_Some in Hj as [[_ Hj]|[Hj _]]; [eauto|lia].
  - (* the best match stays *)
    destruct best as [b|]; cbn [fst snd] in *.
    + destruct St as [Hs [i (Hi & Hc & Hmax & Hfirst)]]. split; [exact Hs|].
      exists i. split; [|split; [exact Hc|split]].
      * now apply lookup_app_l_Some.
      * intros j g' Hj Hc'. apply lookup_snoc_Some in Hj as [[_ Hj]|[_ <-]]; [eauto|].
        destruct Hc' as [_ Hacc]. apply accept_iff in Hacc as [Hthr _].
        apply Qle_bool_iff in Hthr. rewrite Hthr in Hup. cbn in Hup.
        apply negb_false_iff, Qle_bool_iff in Hup. now rewrite Hs in Hup.
      * intros j g' Hlt Hj Hc'. apply lookup_snoc_Some in Hj as [[_ Hj]|[Hj _]]; [eauto|].
        apply lookup_lt_Some in Hi. lia.
    + destruct St as [Hs Hnone]. split; [exact Hs|].
      intros j g' Hj Hc'.
      apply lookup_snoc_Some in Hj as [[_ Hj]|[_ <-]]; [exact (Hnone _ _ Hj Hc')|].
      destruct Hc' as [_ Hacc]. apply accept_iff in Hacc as [Hthr Hpos].
      apply Qle_bool_iff in Hthr. rewrite Hthr in Hup. cbn in Hup.
      apply negb_false_iff, Qle_bool_iff in Hup. rewrite Hs in Hup.
      exact (Qlt_not_le _ _ Hpos Hup).
Qed.

(** The inner loop, from any state that is right for what was seen. *)
Lemma scan_gold_state p pool :
  forall seen best score,
  scan_state iou_threshold use_fuzzy_matching p seen (best, score) ->
  scan_state iou_threshold use_fuzzy_matching p (seen ++ pool)
    (scan_gold iou_threshold use_fuzzy_matching p pool best score).
Proof.
  induction pool as [|g pool IH]; intros seen best score St.
  - now rewrite app_nil_r.
  - pose proof (scan_state_step p seen best score g St) as Step.
    replace (seen ++ g :: pool) with ((seen ++ [g]) ++ pool)
      by now rewrite <- app_assoc.
    cbn [scan_gold]. fold (calculate_iou p g).
    destruct (title_match use_fuzzy_matching p g); [|now apply IH].
    destruct (Qle_bool iou_threshold (calculate_iou p g)
              && negb (Qle_bool (calculate_iou p g) score)); now apply IH.
Qed.

(** The inner loop finds the winner, or finds that there is no candidate. *)
Lemma scan_gold_winner p pool :
  scan_state iou_threshold use_fuzzy_matching p pool
    (scan_gold iou_threshold use_fuzzy_matching p pool None 0%Q).
Proof.
  apply (scan_gold_state p pool [] None 0%Q). split; [reflexivity|].
  intros j g Hj. discriminate.
Qed.

(** The two loops answer true exactly when the lists have one length and
    the greedy assignment goes through. *)
Lemma match_chunks_greedy predicted :
  forall pool,
  match_chunks iou_threshold use_fuzzy_matching predicted pool = true
  <-> (length predicted = length pool
       /\ greedy_match (at_least_and_positive iou_threshold) use_fuzzy_matching predicted pool).
Proof.
  induction predicted as [|p rest IH]; intros pool.
  - destruct pool; simpl; split; try tauto.
    + intros _. split; [reflexivity|constructor].
    + discriminate.
    + intros [[=] _].
  - cbn [match_chunks]. pose proof (scan_gold_winner p pool) as St.
    destruct (scan_gold iou_threshold use_fuzzy_matching p pool None 0%Q) as [[b|] s];
      unfold scan_state in St; cbn [fst snd] in St.
    + destruct St as [_ [i Hw]]. rewrite (list_remove_winner _ _ _ _ _ Hw), IH.
      assert (Hlen : length pool = S (length (delete i pool))).
      { destruct Hw as [Hi _]. pose proof (lookup_lt_Some _ _ _ Hi).
        rewrite length_delete by eauto. lia. }
      split.
      * intros [Hl Hg]. split; [simpl; lia|]. econstructor; eassumption.
      * intros [Hl Hg]. simpl in Hl. inversion Hg as [|? ? ? i' g' Hw' Hg']; subst.
        destruct (winner_unique _ _ _ _ _ _ _ Hw Hw') as [<- <-]. split; [lia|exact Hg'].
    + destruct St as [_ Hnone]. split; [discriminate|].
      intros [_ Hg]. inversion Hg as [|? ? ? i' g' Hw' Hg']; subst.
      destruct Hw' as (Hi & Hc & _). exfalso. exact (Hnone i' g' Hi Hc).
Qed.

End Matching.

(** C1, as the specification words it, fails.  With a threshold of zero a
    gold chunk of IoU zero reaches the threshold, and the greedy assignment
    of the specification goes through; the function answers false. *)
Lemma compare_chunks_zero_threshold_counterexample :
  ~ chunk_matcher_spec (at_least 0) true
      (compare_chunks no_jsonschema [mkChunk s!"Scope" 1 2] [mkChunk s!"Scope" 5 6] 1 0 true)
      [mkChunk s!"Scope" 1 2] [mkChunk s!"Scope" 5 6].
Proof.
  unfold chunk_matcher_spec. intros [_ H].
  assert (Hc : candidate (at_least 0) true (mkChunk s!"Scope" 1 2) (mkChunk s!"Scope" 5 6))
    by (split; reflexivity).
  assert (Hg : greedy_match (at_least 0) true [mkChunk s!"Scope" 1 2] [mkChunk s!"Scope" 5 6]).
  { apply (greedy_step _ _ _ [] [mkChunk s!"Scope" 5 6] 0%nat (mkChunk s!"Scope" 5 6));
      [|constructor].
    split; [reflexivity|split; [exact Hc|split]].
    - intros [|j] g' Hj _; [|discriminate]. injection Hj as <-. apply Qle_refl.
    - intros j g' Hj. lia. }
  specialize (H (conj eq_refl Hg)). vm_compute in H. discriminate.
Qed.

(** C1, amended.  On two lists that pass the schema validation,
    [compare_chunks] answers true exactly when the lists have the same
    length and every predicted chunk, in input order, finds a winner in
    the pool of gold chunks not yet matched: among the gold chunks whose
    title matches and whose IoU is at least [iou_threshold] and above
    zero, the one of the highest IoU, the first of the pool when several
    tie; the winner leaves the pool.  The answer is false when the lengths
    differ and as soon as a predicted chunk has no winner. *)
Theorem compare_chunks_greedy (chunks_valid : list Chunk -> bool)
    (predicted gold : list Chunk) (page_tolerance : Z) (iou_threshold : Q)
    (use_fuzzy_matching : bool) :
  chunks_valid predicted = true ->
  chunks_valid gold = true ->
  chunk_matcher_spec (at_least_and_positive iou_threshold) use_fuzzy_matching
    (compare_chunks chunks_valid predicted gold page_tolerance iou_threshold
       use_fuzzy_matching)
    predicted gold.
Proof.
  intros Hp Hg. unfold chunk_matcher_spec, compare_chunks. rewrite Hp, Hg. cbn [andb negb].
  destruct (len predicted =? len gold) eqn:E; cbn [negb].
  - apply match_chunks_greedy.
  - apply Z.eqb_neq in E. unfold len in E. split; [discriminate|].
    intros [Hl _]. congruence.
Qed.

Lemma compare_chunks_greedy_witness :
  chunk_matcher_spec (at_least_and_positive default_iou_threshold) true
    (compare_chunks no_jsonschema
       [mkChunk s!"Material Specs" 4 6] [mkChunk s!"Material Specifications" 4 6]
       1 default_iou_threshold true)
    [mkChunk s!"Material Specs" 4 6] [mkChunk s!"Material Specifications" 4 6].
Proof. apply compare_chunks_greedy; reflexivity. Defined.

(** With a threshold above zero the two readings of "high enough" are one. *)
Lemma at_least_positive (iou_threshold q : Q) :
  (0 < iou_threshold)%Q -> at_least_and_positive iou_threshold q = at_least iou_threshold q.
Proof.
  intros Hpos. unfold at_least_and_positive, at_least.
  destruct (Qle_bool iou_threshold q) eqn:E; [|reflexivity].
  apply Qle_bool_iff in E. cbn [andb]. apply negb_true_iff, Qle_bool_false.
  eapply Qlt_le_trans; eassumption.
Qed.

Lemma is_winner_ext (acc acc' : Q -> bool) use_fuzzy_matching p pool i g :
  (forall q, acc q = acc' q) ->
  is_winner acc use_fuzzy_matching p pool i g ->
  is_winner acc' use_fuzzy_matching p pool i g.
Proof.
  intros Hext (Hi & [Ht Ha] & Hmax & Hfirst). unfold is_winner, candidate.
  split; [exact Hi|]. split; [now rewrite <- Hext|]. split.
  - intros j g' Hj [Ht' Ha']. apply (Hmax j g' Hj). split; [exact Ht'|now rewrite Hext].
  - intros j g' Hlt Hj [Ht' Ha']. apply (Hfirst j g' Hlt Hj).
    split; [exact Ht'|now rewrite Hext].
Qed.

Lemma greedy_match_ext (acc acc' : Q -> bool) use_fuzzy_matching predicted pool :
  (forall q, acc q = acc' q) ->
  greedy_match acc use_fuzzy_matching predicted pool ->
  greedy_match acc' use_fuzzy_matching predicted pool.
Proof.
  intros Hext H. induction H as [pool|p rest pool i g Hw _ IH]; [constructor|].
  econstructor; [|exact IH]. eapply is_winner_ext; eassumption.
Qed.

(** Under a threshold above zero, the default among them, the function is
    the greedy assignment exactly as the specification words it. *)
Lemma compare_chunks_positive_threshold (chunks_valid : list Chunk -> bool)
    (predicted gold : list Chunk) (page_tolerance : Z) (iou_threshold : Q)
    (use_fuzzy_matching : bool) :
  chunks_valid predicted = true ->
  chunks_valid gold = true ->
  (0 < iou_threshold)%Q ->
  chunk_matcher_spec (at_least iou_threshold) use_fuzzy_matching
    (compare_chunks chunks_valid predicted gold page_tolerance iou_threshold
       use_fuzzy_matching)
    predicted gold.
Proof.
  intros Hp Hg Hpos. unfold chunk_matcher_spec, compare_chunks. rewrite Hp, Hg.
  cbn [andb negb]. destruct (len predicted =? len gold) eqn:E; cbn [negb].
  - rewrite match_chunks_greedy. split; intros [Hl Hm]; (split; [exact Hl|]).
    + eapply greedy_match_ext; [|exact Hm]. intros q. now apply at_least_positive.
    + eapply greedy_match_ext; [|exact Hm]. intros q. symmetry. now apply at_least_positive.
  - apply Z.eqb_neq in E. unfold len in E. split; [discriminate|].
    intros [Hl _]. congruence.
Qed.

(** Once the best score is 1 the inner loop changes nothing. *)
Lemma scan_gold_saturated iou_threshold use_fuzzy_matching p pool best score :
  (1 <= score)%Q ->
  scan_gold iou_threshold use_fuzzy_matching p pool best score = (best, score).
Proof.
  intros Hs. induction pool as [|g pool IH]; [reflexivity|]. cbn [scan_gold].
  fold (calculate_iou p g).
  assert (Hle : Qle_bool (calculate_iou p g) score = true).
  { apply Qle_bool_iff. eapply Qle_trans; [apply calculate_iou_bounds|exact Hs]. }
  rewrite Hle, andb_false_r. now destruct (title_match use_fuzzy_matching p g).
Qed.

Lemma match_chunks_same iou_threshold use_fuzzy_matching chunks :
  (iou_threshold <= 1)%Q ->
  valid_chunks chunks ->
  match_chunks iou_threshold use_fuzzy_matching chunks chunks = true.
Proof.
  intros Hthr Hv. induction Hv as [|c chunks Hc Hv IH]; [reflexivity|].
  cbn [match_chunks scan_gold]. fold (calculate_iou c c).
  rewrite title_match_refl.
  pose proof (calculate_iou_self c Hc) as H1.
  assert (Hok : Qle_bool iou_threshold (calculate_iou c c)
                && negb (Qle_bool (calculate_iou c c) 0) = true).
  { apply andb_true_iff. split.
    - apply Qle_bool_iff. eapply Qle_trans; eassumption.
    - apply negb_true_iff, Qle_bool_false. eapply Qlt_le_trans; [|exact H1]. reflexivity. }
  rewrite Hok, (scan_gold_saturated _ _ _ _ _ _ H1). cbn [list_remove].
  now rewrite (proj2 (chunk_eqb_eq c c) eq_refl).
Qed.

(** C7. The chunk matcher is reflexive: a list of chunks that passes the
    schema validation, none of whose page ranges runs backwards and whose
    titles are pairwise distinct, matches itself under the default
    thresholds. *)
Theorem compare_chunks_reflexive (chunks_valid : list Chunk -> bool)
    (chunks : list Chunk) (page_tolerance : Z) :
  chunks_valid chunks = true ->
  valid_chunks chunks ->
  NoDup (map title chunks) ->
  compare_chunks chunks_valid chunks chunks page_tolerance default_iou_threshold true = true.
Proof.
  intros Hs Hv _. unfold compare_chunks. rewrite Hs, Z.eqb_refl. cbn [andb negb].
  apply match_chunks_same; [|exact Hv]. unfold default_iou_threshold, Qle. simpl. lia.
Qed.

Lemma compare_chunks_reflexive_witness :
  compare_chunks no_jsonschema
    [mkChunk s!"Fire Piping System Overview" 1 3; mkChunk s!"Material Specs" 4 6]
    [mkChunk s!"Fire Piping System Overview" 1 3; mkChunk s!"Material Specs" 4 6]
    1 default_iou_threshold true = true.
Proof.
  apply compare_chunks_reflexive.
  - reflexivity.
  - repeat constructor; simpl; lia.
  - apply (bool_decide_unpack _). vm_compute. exact I.
Defined.

(** ** Entity matcher and scorer *)

Lemma bind_ret_inv {A B : Type} (m : result A) (k : A -> result B) (y : B) :
  bind m k = inr y -> exists x, m = inr x /\ k x = inr y.
Proof. destruct m as [e|x]; simpl; [discriminate|eauto]. Qed.

Lemma fields_agree_spec fields (e1 e2 : Entity) :
  fields_agree fields e1 e2 = true
  <-> (forall field v1 v2, In field fields ->
         e1 !! field = Some v1 -> e2 !! field = Some v2 -> py_eqb v1 v2 = true).
Proof.
  induction fields as [|f fields IH]; cbn [fields_agree].
  - split; [intros _ ? ? ? []|reflexivity].
  - destruct (e1 !! f) as [v1|] eqn:E1; [destruct (e2 !! f) as [v2|] eqn:E2|].
    + destruct (py_eqb v1 v2) eqn:Ev; cbn [negb].
      * rewrite IH. split.
        -- intros H field w1 w2 [<-|Hin] H1 H2; [congruence|eauto].
        -- intros H field w1 w2 Hin. apply H. now right.
      * split; [discriminate|]. intros H. rewrite <- Ev.
        apply (H f); [now left|exact E1|exact E2].
    + rewrite IH. split.
      * intros H field w1 w2 [<-|Hin] H1 H2; [congruence|eauto].
      * intros H field w1 w2 Hin. apply H. now right.
    + rewrite IH. split.
      * intros H field w1 w2 [<-|Hin] H1 H2; [congruence|eauto].
      * intros H field w1 w2 Hin. apply H. now right.
Qed.

Lemma key_fields_agree (e1 e2 : Entity) :
  fields_agree key_fields e1 e2 = true
  <-> field_equal "type" e1 e2 /\ field_equal "material" e1 e2
      /\ field_equal "diameter" e1 e2 /\ field_equal "schedule" e1 e2.
Proof.
  rewrite fields_agree_spec. unfold field_equal, key_fields. split.
  - intros H. repeat split; intros v1 v2; apply H; cbn; tauto.
  - intros (Ht & Hm & Hd & Hs) field v1 v2 [<-|[<-|[<-|[<-|[]]]]]; auto.
Qed.

(** C5. On two normalized entities [entities_match] returns, and it
    returns true exactly when each of the fields [type], [material],
    [diameter] and [schedule] that both entities define is equal in the
    two, and the pages, when both define [location_page], differ by one at
    most. *)
Theorem entities_match_spec (e1 e2 : Entity) :
  page_is_int e1 = true ->
  page_is_int e2 = true ->
  (exists b, entities_match e1 e2 = ret b)
  /\ (entities_match e1 e2 = ret true
      <-> field_equal "type" e1 e2 /\ field_equal "material" e1 e2
          /\ field_equal "diameter" e1 e2 /\ field_equal "schedule" e1 e2
          /\ pages_within_one e1 e2).
Proof.
  intros H1 H2. pose proof (key_fields_agree e1 e2) as Hf.
  assert (Hsplit : forall P : Prop,
            (field_equal "type" e1 e2 /\ field_equal "material" e1 e2
             /\ field_equal "diameter" e1 e2 /\ field_equal "schedule" e1 e2 /\ P)
            <-> (fields_agree key_fields e1 e2 = true /\ P)) by (intros P; tauto).
  rewrite Hsplit. clear Hf Hsplit.
  unfold page_is_int, entities_match, pages_within_one in *.
  destruct (fields_agree key_fields e1 e2); cbn [negb].
  - destruct (e1 !! "location_page"%string) as [[|p1| |]|]; try discriminate;
      destruct (e2 !! "location_page"%string) as [[|p2| |]|]; try discriminate;
      cbn [page_diff_exceeds bind ret].
    + destruct (1 <? Z.abs (p1 - p2)) eqn:E.
      * apply Z.ltb_lt in E. split; [eauto|]. split; [discriminate|].
        intros [_ Hp]. specialize (Hp p1 p2 eq_refl eq_refl). lia.
      * apply Z.ltb_ge in E. split; [eauto|]. split; [|reflexivity].
        intros _. split; [reflexivity|]. now intros ? ? [= <-] [= <-].
    + split; [eauto|]. split; [|reflexivity].
      intros _. split; [reflexivity|]. intros ? ? _ [=].
    + split; [eauto|]. split; [|reflexivity].
      intros _. split; [reflexivity|]. intros ? ? [=].
    + split; [eauto|]. split; [|reflexivity].
      intros _. split; [reflexivity|]. intros ? ? [=].
  - split; [eauto|]. split; [discriminate|]. intros [Hk _]. discriminate.
Qed.

Lemma entities_match_spec_witness :
  entities_match sample_pipe (<["location_page"%string := VInt 6]> sample_pipe) = ret true
  <-> field_equal "type" sample_pipe (<["location_page"%string := VInt 6]> sample_pipe)
      /\ field_equal "material" sample_pipe (<["location_page"%string := VInt 6]> sample_pipe)
      /\ field_equal "diameter" sample_pipe (<["location_page"%string := VInt 6]> sample_pipe)
      /\ field_equal "schedule" sample_pipe (<["location_page"%string := VInt 6]> sample_pipe)
      /\ pages_within_one sample_pipe (<["location_page"%string := VInt 6]> sample_pipe).
Proof.
  apply (entities_match_spec sample_pipe (<["location_page"%string := VInt 6]> sample_pipe));
    reflexivity.
Defined.

(** What [normalize_entity] returns has an integer page. *)
Lemma normalize_entity_page_is_int (e e' : Entity) :
  normalize_entity e = ret e' -> page_is_int e' = true.
Proof.
  unfold normalize_entity. intros H.
  apply bind_ret_inv in H as [n1 [_ H]]. apply bind_ret_inv in H as [n2 [_ H]].
  unfold page_is_int. destruct (n2 !! "location_page"%string) as [v|] eqn:E.
  - apply bind_ret_inv in H as [p [_ H]]. injection H as <-.
    now rewrite lookup_insert_eq.
  - injection H as <-. now rewrite E.
Qed.

(** C6. [score_entities] settles the empty lists before it normalizes or
    matches anything: two empty lists that pass the validation score
    [(1.0, 1.0, 1.0)], and one empty list against one that is not scores
    [(0.0, 0.0, 0.0)], whatever the entities of the other list are. *)
Theorem score_entities_empty (entities_valid : list Entity -> bool) :
  (entities_valid [] = true ->
   score_entities entities_valid [] [] = ret (1, 1, 1)%Q)
  /\ (forall gold, gold <> [] ->
        score_entities entities_valid [] gold = ret (0, 0, 0)%Q)
  /\ (forall predicted, predicted <> [] ->
        score_entities entities_valid predicted [] = ret (0, 0, 0)%Q).
Proof.
  unfold score_entities. repeat split.
  - now intros ->.
  - intros [|g gold] H; [contradiction|].
    now destruct (negb (entities_valid [] && entities_valid (g :: gold))).
  - intros [|p predicted] H; [contradiction|].
    now destruct (negb (entities_valid (p :: predicted) && entities_valid [])).
Qed.

Lemma score_entities_empty_witness :
  score_entities no_jsonschema [] [] = ret (1, 1, 1)%Q
  /\ score_entities no_jsonschema [] [<["diameter"%string := VStr s!"wide"]> sample_pipe]
     = ret (0, 0, 0)%Q.
Proof.
  split.
  - apply (proj1 (score_entities_empty no_jsonschema)). reflexivity.
  - apply (proj1 (proj2 (score_entities_empty no_jsonschema))). discriminate.
Defined.

Lemma normalize_all_length entities normalized :
  normalize_all entities = ret normalized -> length normalized = length entities.
Proof.
  revert normalized. induction entities as [|e entities IH]; intros normalized H.
  - now injection H as <-.
  - cbn [normalize_all] in H. apply bind_ret_inv in H as [n [_ H]].
    apply bind_ret_inv in H as [ns [Hns H]]. injection H as <-.
    simpl. now rewrite (IH ns Hns).
Qed.

(** Every predicted entity adds one to the count at most. *)
Lemma count_true_positives_bounds norm_predicted norm_gold :
  forall true_positives total,
  count_true_positives norm_predicted norm_gold true_positives = ret total ->
  true_positives <= total <= true_positives + len norm_predicted.
Proof.
  induction norm_predicted as [|p rest IH]; intros tp total H.
  - injection H as <-. rewrite len_nil. lia.
  - cbn [count_true_positives] in H. apply bind_ret_inv in H as [m [_ H]].
    apply IH in H. rewrite len_cons. destruct m; lia.
Qed.

Lemma int_div_unit n d : 0 <= n <= d -> 0 < d -> (0 <= int_div n d <= 1)%Q.
Proof.
  intros Hn Hd. unfold int_div, Qle. simpl. rewrite Z2Pos.id by lia. lia.
Qed.

Lemma score_entities_precision entities_valid predicted gold p r f :
  score_entities entities_valid predicted gold = ret (p, r, f) -> (0 <= p <= 1)%Q.
Proof.
  unfold score_entities.
  destruct (negb (entities_valid predicted && entities_valid gold)).
  { intros [= <- _ _]. split; discriminate. }
  destruct predicted as [|e predicted]; [destruct gold; intros [= <- _ _]; split; discriminate|].
  destruct gold as [|g gold]; [intros [= <- _ _]; split; discriminate|].
  intros H. apply bind_ret_inv in H as [np [Hnp H]].
  apply bind_ret_inv in H as [ng [_ H]]. apply bind_ret_inv in H as [tp [Htp H]].
  injection H as <- _ _.
  apply count_true_positives_bounds in Htp. apply normalize_all_length in Hnp.
  unfold len in *. rewrite Hnp in Htp. apply int_div_unit; [lia|]. simpl length. lia.
Qed.

(** C9. The recall of [score_entities] is not bounded by 1: two identical
    predicted entities against the one gold entity that matches both give
    a recall of 2, since the gold entity stays in the list and the count is
    divided by the number of gold entities.  The precision lies between 0
    and 1 on every input. *)
Theorem recall_exceeds_one_precision_does_not :
  (exists p r f,
     score_entities no_jsonschema [sample_pipe; sample_pipe] [sample_pipe] = ret (p, r, f)
     /\ (1 < r)%Q)
  /\ (forall entities_valid predicted gold p r f,
        score_entities entities_valid predicted gold = ret (p, r, f) -> (0 <= p <= 1)%Q).
Proof.
  split.
  - exists (2 # 2), (2 # 1), (16 # 12). split; [vm_compute; reflexivity|reflexivity].
  - exact score_entities_precision.
Qed.

Lemma recall_exceeds_one_precision_does_not_witness :
  (0 <= 1 # 2 <= 1)%Q.
Proof.
  apply (proj2 recall_exceeds_one_precision_does_not no_jsonschema
           [sample_pipe; <["material"%string := VStr s!"copper"]> sample_pipe]
           [sample_pipe] (1 # 2) 1%Q (4 # 6)).
  vm_compute. reflexivity.
Defined.

(** ** The module's own tests

    The assertions of the test suite on the utility functions, evaluated on
    the embedding. *)

Example test_normalize_diameter :
  normalize_diameter (s!"1-1/2" ++ [dquote]) = ret (Fin (3 # 2))
  /\ normalize_diameter s!"3/4" = ret (Fin (3 # 4))
  /\ normalize_diameter s!"2 inch" = ret (Fin 2)
  /\ normalize_diameter s!"4" = ret (Fin 4).
Proof. repeat split. Qed.

Example test_normalize_material :
  normalize_material s!"Galvanized Steel" = s!"galvanized steel"
  /\ normalize_material s!"COPPER, TYPE L" = s!"copper type l"
  /\ normalize_material s!"PVC-Schedule 40" = s!"pvc schedule 40".
Proof. repeat split. Qed.

Example test_calculate_iou :
  calculate_iou (mkChunk [] 1 3) (mkChunk [] 2 4) = 2 # 4.
Proof. reflexivity. Qed.

Example test_advanced_iou_calculation :
  snd (calculate_iou_advanced (mkChunk [] 1 5) (mkChunk [] 3 7))
  = {| m_iou := 3 # 7; m_intersection := 3; m_union := 7; m_pred_size := 5;
       m_gold_size := 5; m_size_ratio := 5 # 5; m_overlap_percentage := 3 # 5 |}.
Proof. reflexivity. Qed.

Example test_fuzzy_title_matching :
  map (fun '(t1, t2) => fuzzy_title_match t1 t2 default_max_distance)
    [(s!"Fire Piping System", s!"Fire Piping System");
     (s!"Fire Piping System", s!"fire piping system");
     (s!"Fire Piping System", s!"Fire Piping Systems");
     (s!"Fire Piping System", s!"Fire Protection System");
     (s!"Material Specs", s!"Material Specifications");
     (s!"Zone 1 - East Wing", s!"Zone 1 East Wing");
     (s!"System Overview", s!"Completely Different")]
  = [true; true; true; false; true; true; false].
Proof. vm_compute. reflexivity. Qed.

Example test_enhanced_chunk_comparison :
  let predicted := [mkChunk s!"Fire Piping System Overview" 1 3;
                    mkChunk s!"Material Specs" 4 6] in
  let gold := [mkChunk s!"Fire Piping System Overview" 1 3;
               mkChunk s!"Material Specifications" 4 6] in
  compare_chunks no_jsonschema predicted gold 1 default_iou_threshold true = true
  /\ compare_chunks no_jsonschema predicted gold 1 default_iou_threshold false = false.
Proof. split; vm_compute; reflexivity. Qed.

Example test_chunk_continuity_validation :
  fst (validate_chunk_continuity
         [mkChunk s!"Chapter 1" 1 5; mkChunk s!"Chapter 2" 6 10; mkChunk s!"Chapter 3" 11 15])
  = true
  /\ fst (validate_chunk_continuity [mkChunk s!"Bad Chunk" 10 5]) = false
  /\ snd (validate_chunk_continuity
            [mkChunk s!"Chapter 1" 1 10; mkChunk s!"Chapter 2" 8 15])
     = [Overlapping 3 (mkChunk s!"Chapter 1" 1 10) (mkChunk s!"Chapter 2" 8 15)].
Proof. repeat split. Qed.

Example test_entities_match :
  entities_match sample_pipe (<["id"%string := VStr s!"pipe_002"]> sample_pipe) = ret true
  /\ entities_match sample_pipe (<["material"%string := VStr s!"copper"]> sample_pipe)
     = ret false.
Proof. split; vm_compute; reflexivity. Qed.

(** * Further properties of the module *)

(** ** Edit distance, beyond the metric laws *)

Lemma lev_zero a : forall b, lev a b = 0 -> a = b.
Proof.
  induction a as [|x a IH]; intros b H.
  - rewrite lev_nil_l in H. destruct b; [reflexivity|].
    rewrite len_cons in H. pose proof (len_nonneg b). lia.
  - destruct b as [|y b].
    + rewrite lev_nil_r, len_cons in H. pose proof (len_nonneg a). lia.
    + rewrite lev_cons in H.
      pose proof (lev_nonneg a (y :: b)). pose proof (lev_nonneg (x :: a) b).
      pose proof (lev_nonneg a b). pose proof (neq_cost_bounds x y).
      assert (Hab : lev a b = 0) by lia. assert (Hc : neq_cost x y = 0) by lia.
      unfold neq_cost in Hc. case_bool_decide; [|discriminate].
      subst y. f_equal. now apply IH.
Qed.

Lemma lev_length_max a : forall b, lev a b <= Z.max (len a) (len b).
Proof.
  induction a as [|x a IH]; intros b.
  - rewrite lev_nil_l, len_nil. pose proof (len_nonneg b). lia.
  - destruct b as [|y b].
    + rewrite lev_nil_r, len_nil. pose proof (len_nonneg (x :: a)). lia.
    + rewrite lev_cons, !len_cons. pose proof (IH b). pose proof (neq_cost_bounds x y). lia.
Qed.

(** X1. The distance of two strings is zero only when they are the same
    string: together with its being zero on identical strings,
    [calculate_levenshtein_distance s1 s2 = 0] exactly when [s1 = s2]. *)
Theorem levenshtein_zero_iff_equal s1 s2 :
  calculate_levenshtein_distance s1 s2 = 0 <-> s1 = s2.
Proof.
  rewrite calculate_levenshtein_distance_lev. split.
  - intros H. apply lev_zero in H. now apply (f_equal (@rev ascii)) in H; rewrite !rev_involutive in H.
  - intros ->. apply lev_same.
Qed.

(** X2. The distance lies between the difference of the two lengths and
    the greater of them; against the empty string it is the length of the
    other string. *)
Theorem levenshtein_length_bounds s1 s2 :
  Z.abs (len s1 - len s2) <= calculate_levenshtein_distance s1 s2 <= Z.max (len s1) (len s2).
Proof.
  rewrite calculate_levenshtein_distance_lev.
  pose proof (lev_length_lower (rev s1) (rev s2)) as H1.
  pose proof (lev_length_lower (rev s2) (rev s1)) as H2.
  rewrite (lev_sym (rev s2)) in H2.
  pose proof (lev_length_max (rev s1) (rev s2)) as H3.
  rewrite !len_rev in *. lia.
Qed.

(** ** Title matcher, beyond the three stages *)

Lemma str_eqb_sym a b : str_eqb a b = str_eqb b a.
Proof. unfold str_eqb. apply bool_decide_ext. split; congruence. Qed.

Lemma calculate_levenshtein_distance_sym a b :
  calculate_levenshtein_distance a b = calculate_levenshtein_distance b a.
Proof. rewrite !calculate_levenshtein_distance_lev. apply lev_sym. Qed.

(** X3. The title matcher is symmetric: the order of the two titles does
    not change the answer. *)
Theorem fuzzy_title_match_symmetric title1 title2 max_distance :
  fuzzy_title_match title1 title2 max_distance = fuzzy_title_match title2 title1 max_distance.
Proof.
  unfold fuzzy_title_match.
  rewrite (str_eqb_sym (strip (lower title1))).
  rewrite (orb_comm (check_word_similarity (split_ws (strip (lower title1))) _)).
  rewrite (calculate_levenshtein_distance_sym (strip (lower title1))).
  now rewrite (Z.max_comm (len (strip (lower title1)))).
Qed.

(** X4. A greater edit budget never turns a match into a mismatch. *)
Theorem fuzzy_title_match_monotone title1 title2 max_distance max_distance' :
  max_distance <= max_distance' ->
  fuzzy_title_match title1 title2 max_distance = true ->
  fuzzy_title_match title1 title2 max_distance' = true.
Proof.
  unfold fuzzy_title_match. intros Hle.
  destruct (str_eqb _ _); [reflexivity|].
  destruct (_ || _); [reflexivity|].
  rewrite !Z.leb_le. lia.
Qed.

Lemma fuzzy_title_match_monotone_witness :
  fuzzy_title_match s!"Fire Piping System" s!"Fire Protection System" 10 = true.
Proof.
  apply (fuzzy_title_match_monotone _ _ 8 10); [lia|reflexivity].
Defined.

(** *** Lowercasing and trimming *)

Lemma isspace_lower c : isspace (lower_char c) = isspace c.
Proof.
  destruct c as [b0 b1 b2 b3 b4 b5 b6 b7].
  destruct b0, b1, b2, b3, b4, b5, b6, b7; reflexivity.
Qed.

Lemma lower_char_idem c : lower_char (lower_char c) = lower_char c.
Proof.
  destruct c as [b0 b1 b2 b3 b4 b5 b6 b7].
  destruct b0, b1, b2, b3, b4, b5, b6, b7; reflexivity.
Qed.

Lemma lower_idem s : lower (lower s) = lower s.
Proof. unfold lower. rewrite map_map. apply map_ext. exact lower_char_idem. Qed.

Lemma lstrip_lower s : lstrip (lower s) = lower (lstrip s).
Proof.
  induction s as [|c s IH]; [reflexivity|]. simpl.
  rewrite isspace_lower. now destruct (isspace c).
Qed.

Lemma lower_rev s : lower (rev s) = rev (lower s).
Proof. unfold lower. apply map_rev. Qed.

Lemma rstrip_lower s : rstrip (lower s) = lower (rstrip s).
Proof. unfold rstrip. now rewrite <- lower_rev, lstrip_lower, lower_rev. Qed.

Lemma strip_lower s : strip (lower s) = lower (strip s).
Proof. unfold strip. now rewrite lstrip_lower, rstrip_lower. Qed.

Lemma forallb_rev {A : Type} (f : A -> bool) l : forallb f (rev l) = forallb f l.
Proof.
  induction l as [|x l IH]; [reflexivity|]. simpl.
  rewrite forallb_app, IH. simpl. now rewrite andb_true_r, andb_comm.
Qed.

Lemma lstrip_app a b :
  lstrip (a ++ b) = if forallb isspace a then lstrip b else lstrip a ++ b.
Proof.
  induction a as [|c a IH]; [reflexivity|]. simpl.
  destruct (isspace c); [exact IH|reflexivity].
Qed.

(** [rstrip] by its first character, without reversing. *)
Lemma rstrip_cons c s :
  rstrip (c :: s) = if isspace c && forallb isspace s then [] else c :: rstrip s.
Proof.
  unfold rstrip. simpl rev. rewrite lstrip_app, forallb_rev.
  destruct (forallb isspace s) eqn:E.
  - rewrite (lstrip_blank (rev s)) by now rewrite forallb_rev.
    simpl. destruct (isspace c); reflexivity.
  - rewrite andb_false_r, rev_app_distr. reflexivity.
Qed.

Lemma rstrip_nil : rstrip [] = [].
Proof. reflexivity. Qed.

Lemma forallb_isspace_rstrip s : forallb isspace (rstrip s) = forallb isspace s.
Proof.
  induction s as [|c s IH]; [reflexivity|]. rewrite rstrip_cons. simpl.
  destruct (isspace c && forallb isspace s) eqn:E; [reflexivity|].
  simpl. now rewrite IH.
Qed.

Lemma rstrip_idem s : rstrip (rstrip s) = rstrip s.
Proof.
  induction s as [|c s IH]; [reflexivity|]. rewrite rstrip_cons.
  destruct (isspace c && forallb isspace s) eqn:E; [reflexivity|].
  now rewrite rstrip_cons, forallb_isspace_rstrip, E, IH.
Qed.

Lemma lstrip_starts_clean s : starts_clean (lstrip s).
Proof.
  induction s as [|c s IH]; [exact I|]. simpl.
  destruct (isspace c) eqn:E; [exact IH|exact E].
Qed.

Lemma lstrip_clean s : starts_clean s -> lstrip s = s.
Proof. destruct s as [|c s]; [reflexivity|]. simpl. now intros ->. Qed.

Lemma rstrip_starts_clean s : starts_clean s -> starts_clean (rstrip s).
Proof.
  destruct s as [|c s]; [intros _; exact I|]. simpl. intros E.
  rewrite rstrip_cons, E. exact E.
Qed.

Lemma strip_idem s : strip (strip s) = strip s.
Proof.
  unfold strip.
  rewrite (lstrip_clean (rstrip (lstrip s)))
    by apply rstrip_starts_clean, lstrip_starts_clean.
  apply rstrip_idem.
Qed.

(** Normalizing a title twice is normalizing it once. *)
Lemma normalized_title_idem t : strip (lower (strip (lower t))) = strip (lower t).
Proof. now rewrite <- strip_lower, lower_idem, strip_idem. Qed.

(** X5. Titles may be normalized beforehand: lowercasing and trimming the
    two titles before the call does not change the answer, because doing
    either twice is doing it once. *)
Theorem fuzzy_title_match_prenormalized title1 title2 max_distance :
  fuzzy_title_match (strip (lower title1)) (strip (lower title2)) max_distance
  = fuzzy_title_match title1 title2 max_distance.
Proof. unfold fuzzy_title_match. now rewrite !normalized_title_idem. Qed.

Lemma startswith_refl s : startswith s s = true.
Proof.
  induction s as [|c s IH]; [reflexivity|]. simpl.
  now rewrite bool_decide_eq_true_2.
Qed.

Lemma word_similar_refl w : word_similar w w = true.
Proof.
  unfold word_similar. destruct w; simpl; [reflexivity|].
  now rewrite bool_decide_eq_true_2, startswith_refl.
Qed.

Lemma some_word_similar_in w words : In w words -> some_word_similar w words = true.
Proof.
  induction words as [|v words IH]; [intros []|]. intros [->|Hin]; simpl.
  - now rewrite word_similar_refl.
  - destruct (word_similar w v); [reflexivity|auto].
Qed.

Lemma count_matches_bound words_a words_b :
  forall matches, count_matches words_a words_b matches <= matches + len words_a.
Proof.
  induction words_a as [|w words_a IH]; intros m; simpl.
  - rewrite len_nil. lia.
  - rewrite len_cons. destruct (some_word_similar w words_b); pose proof (IH m);
      pose proof (IH (m + 1)); lia.
Qed.

(** The count reaches the number of words exactly when every word found a
    similar one. *)
Lemma check_word_similarity_forallb words_a words_b :
  check_word_similarity words_a words_b
  = forallb (fun w => some_word_similar w words_b) words_a.
Proof.
  unfold check_word_similarity.
  assert (H : forall m, (count_matches words_a words_b m =? m + len words_a)
                        = forallb (fun w => some_word_similar w words_b) words_a).
  { induction words_a as [|w words_a IH]; intros m; simpl.
    - rewrite len_nil, Z.add_0_r. apply Z.eqb_refl.
    - rewrite len_cons. destruct (some_word_similar w words_b); simpl.
      + rewrite <- (IH (m + 1)). f_equal. lia.
      + apply Z.eqb_neq. pose proof (count_matches_bound words_a words_b m). lia. }
  apply (H 0).
Qed.

(** X6. A title all of whose words occur among the words of the other
    title matches it, whichever of the two is the shorter: every such word
    is contained in the equal word of the other title. *)
Theorem fuzzy_title_match_subset_of_words title1 title2 max_distance :
  incl (split_ws (strip (lower title1))) (split_ws (strip (lower title2)))
  \/ incl (split_ws (strip (lower title2))) (split_ws (strip (lower title1))) ->
  fuzzy_title_match title1 title2 max_distance = true.
Proof.
  intros H. unfold fuzzy_title_match. destruct (str_eqb _ _); [reflexivity|].
  rewrite !check_word_similarity_forallb.
  assert (Hsub : forall wa wb, incl wa wb ->
            forallb (fun w => some_word_similar w wb) wa = true).
  { intros wa wb Hincl. apply forallb_forall. intros w Hw.
    apply some_word_similar_in, Hincl, Hw. }
  destruct H as [H|H]; rewrite (Hsub _ _ H); [reflexivity|now rewrite orb_true_r].
Qed.

Lemma fuzzy_title_match_subset_of_words_witness :
  fuzzy_title_match s!"Zone 1" s!"ZONE 1 - East Wing" default_max_distance = true.
Proof.
  apply fuzzy_title_match_subset_of_words. left.
  intros w Hw. vm_compute in Hw. vm_compute. tauto.
Defined.

(** ** Interval overlap *)

(** X7. The IoU of two chunks lies between 0 and 1, whatever their page
    ranges are, also when a range runs backwards. *)
Theorem iou_between_zero_and_one pred_chunk gold_chunk :
  (0 <= fst (calculate_iou_advanced pred_chunk gold_chunk) <= 1)%Q.
Proof. exact (calculate_iou_bounds pred_chunk gold_chunk). Qed.

(** X8. The IoU does not depend on which chunk is the predicted one. *)
Theorem iou_symmetric pred_chunk gold_chunk :
  calculate_iou pred_chunk gold_chunk = calculate_iou gold_chunk pred_chunk.
Proof.
  unfold calculate_iou, calculate_iou_advanced, int_page. cbn [fst].
  rewrite (Z.max_comm (start_page pred_chunk)), (Z.min_comm (end_page pred_chunk)).
  f_equal. lia.
Qed.

Lemma ratio_or_zero_eq_one n d : 0 < d -> (ratio_or_zero n d == 1)%Q <-> n = d.
Proof.
  intros Hd. unfold ratio_or_zero. rewrite (proj2 (Z.ltb_lt 0 d) Hd).
  unfold Qeq. simpl. rewrite Z2Pos.id by lia. lia.
Qed.

Lemma ratio_or_zero_eq_zero n d : 0 < d -> (ratio_or_zero n d == 0)%Q <-> n = 0.
Proof.
  intros Hd. unfold ratio_or_zero. rewrite (proj2 (Z.ltb_lt 0 d) Hd).
  unfold Qeq. simpl. lia.
Qed.

(** X9. Of two chunks whose ranges run forward, the IoU is 1 exactly when
    the ranges are the same, and 0 exactly when they share no page. *)
Theorem iou_extremes pred_chunk gold_chunk :
  start_page pred_chunk <= end_page pred_chunk ->
  start_page gold_chunk <= end_page gold_chunk ->
  ((calculate_iou pred_chunk gold_chunk == 1)%Q
   <-> start_page pred_chunk = start_page gold_chunk
       /\ end_page pred_chunk = end_page gold_chunk)
  /\ ((calculate_iou pred_chunk gold_chunk == 0)%Q
      <-> ranges_disjoint pred_chunk gold_chunk).
Proof.
  intros Hp Hg. unfold calculate_iou, calculate_iou_advanced, int_page, ranges_disjoint.
  cbn [fst]. split.
  - rewrite ratio_or_zero_eq_one by lia. lia.
  - rewrite ratio_or_zero_eq_zero by lia. lia.
Qed.

Lemma iou_extremes_witness :
  (calculate_iou (mkChunk s!"Scope" 4 6) (mkChunk s!"Scope of Work" 4 6) == 1)%Q
  <-> start_page (mkChunk s!"Scope" 4 6) = start_page (mkChunk s!"Scope of Work" 4 6)
      /\ end_page (mkChunk s!"Scope" 4 6) = end_page (mkChunk s!"Scope of Work" 4 6).
Proof.
  apply (iou_extremes (mkChunk s!"Scope" 4 6) (mkChunk s!"Scope of Work" 4 6)); simpl; lia.
Defined.

(** X10. In the detailed metrics the IoU never exceeds the share of the
    gold range that is covered, and that share never exceeds 1; the sizes
    add up: [union = pred_size + gold_size - intersection] with an
    intersection that is never negative. *)
Theorem metrics_consistent pred_chunk gold_chunk :
  let m := snd (calculate_iou_advanced pred_chunk gold_chunk) in
  0 <= m_intersection m
  /\ m_union m = m_pred_size m + m_gold_size m - m_intersection m
  /\ (m_iou m <= m_overlap_percentage m)%Q
  /\ (m_overlap_percentage m <= 1)%Q.
Proof.
  unfold calculate_iou_advanced, int_page. cbn [snd m_intersection m_union m_pred_size
    m_gold_size m_iou m_overlap_percentage].
  split; [lia|]. split; [reflexivity|].
  set (i := Z.max 0 (Z.min (end_page pred_chunk) (end_page gold_chunk)
                     - Z.max (start_page pred_chunk) (start_page gold_chunk) + 1)).
  set (ps := end_page pred_chunk - start_page pred_chunk + 1).
  set (gs := end_page gold_chunk - start_page gold_chunk + 1).
  assert (Hi : 0 <= i) by (unfold i; lia).
  assert (Hps : 0 < i -> i <= ps) by (unfold i, ps; lia).
  assert (Hgs : 0 < i -> i <= gs) by (unfold i, gs; lia).
  unfold ratio_or_zero.
  destruct (0 <? ps + gs - i) eqn:Eu, (0 <? gs) eqn:Eg;
    rewrite ?Z.ltb_lt, ?Z.ltb_ge in *; unfold Qle; simpl;
    rewrite ?Z2Pos.id by lia; split; try lia; nia.
Qed.

(** ** Continuity of a chunk list *)

Lemma insert_by_start_perm c l : Permutation (insert_by_start c l) (c :: l).
Proof.
  induction l as [|d l IH]; simpl; [reflexivity|].
  destruct (start_page c <=? start_page d); [reflexivity|].
  rewrite IH. apply perm_swap.
Qed.

Lemma sorted_by_start_perm chunks : Permutation (sorted_by_start chunks) chunks.
Proof.
  unfold sorted_by_start. induction chunks as [|c chunks IH]; simpl; [reflexivity|].
  rewrite insert_by_start_perm. now apply perm_skip.
Qed.

Lemma insert_by_start_sorted c l :
  ForallOrdPairs (fun a b => start_page a <= start_page b) l ->
  ForallOrdPairs (fun a b => start_page a <= start_page b) (insert_by_start c l).
Proof.
  induction 1 as [|d l Hd Hl IH]; simpl.
  - repeat constructor.
  - destruct (start_page c <=? start_page d) eqn:E.
    + apply Z.leb_le in E. constructor; [|now constructor].
      constructor; [exact E|]. eapply Forall_impl; [exact Hd|]. simpl. intros; lia.
    + apply Z.leb_gt in E. constructor; [|exact IH].
      eapply Permutation_Forall; [symmetry; apply insert_by_start_perm|].
      constructor; [lia|exact Hd].
Qed.

Lemma sorted_by_start_sorted chunks :
  ForallOrdPairs (fun a b => start_page a <= start_page b) (sorted_by_start chunks).
Proof.
  unfold sorted_by_start. induction chunks as [|c chunks IH]; simpl; [constructor|].
  now apply insert_by_start_sorted.
Qed.

(** No issue is reported exactly when the sorted chunks are in page order. *)
Lemma continuity_issues_none l :
  forall prev,
  continuity_issues prev l = []
  <-> match prev with
      | None => in_page_order l
      | Some p => follows p l
      end.
Proof.
  induction l as [|c rest IH]; intros prev.
  - destruct prev; simpl; tauto.
  - cbn [continuity_issues]. specialize (IH (Some c)). cbn in IH.
    destruct (end_page c <? start_page c) eqn:Ec;
      [apply Z.ltb_lt in Ec|apply Z.ltb_ge in Ec].
    { split; [discriminate|]. destruct prev; simpl; lia. }
    cbn [app]. destruct prev as [p|]; cbn [in_page_order follows].
    + destruct (10 <? start_page c - end_page p - 1) eqn:E1;
        [apply Z.ltb_lt in E1|apply Z.ltb_ge in E1].
      { split; [discriminate|]. lia. }
      destruct (start_page c - end_page p - 1 <? 0) eqn:E2;
        [apply Z.ltb_lt in E2|apply Z.ltb_ge in E2].
      { split; [discriminate|]. lia. }
      cbn [app]. rewrite IH. intuition lia.
    + rewrite IH. tauto.
Qed.

Lemma follows_all p l :
  follows p l ->
  Forall (fun c => start_page c <= end_page c /\ end_page p < start_page c) l
  /\ ForallOrdPairs (fun a b => end_page a < start_page b) l.
Proof.
  revert p. induction l as [|c rest IH]; intros p; cbn [follows].
  - intros _. split; constructor.
  - intros [[Hc Hgap] Hrest]. destruct (IH c Hrest) as [Hall Hpairs]. split.
    + constructor; [lia|]. eapply Forall_impl; [exact Hall|]. simpl. intros; lia.
    + constructor; [|exact Hpairs]. eapply Forall_impl; [exact Hall|]. simpl. tauto.
Qed.

Lemma in_page_order_all l :
  in_page_order l ->
  Forall (fun c => start_page c <= end_page c) l
  /\ ForallOrdPairs (fun a b => end_page a < start_page b) l.
Proof.
  destruct l as [|c rest]; cbn [in_page_order]; [intros _; split; constructor|].
  intros [Hc Hrest]. destruct (follows_all c rest Hrest) as [Hall Hpairs]. split.
  - constructor; [exact Hc|]. eapply Forall_impl; [exact Hall|]. simpl. tauto.
  - constructor; [|exact Hpairs]. eapply Forall_impl; [exact Hall|]. simpl. tauto.
Qed.

Lemma ForallOrdPairs_impl {A : Type} (R R' : A -> A -> Prop) l :
  (forall a b, R a b -> R' a b) -> ForallOrdPairs R l -> ForallOrdPairs R' l.
Proof.
  intros HR. induction 1 as [|a l Ha Hl IH]; constructor; [|exact IH].
  eapply Forall_impl; [exact Ha|]. apply HR.
Qed.

(** A symmetric relation that holds of all pairs holds of them in any order
    of the list. *)
Lemma ForallOrdPairs_perm {A : Type} (R : A -> A -> Prop) l l' :
  (forall a b, R a b -> R b a) ->
  Permutation l l' -> ForallOrdPairs R l -> ForallOrdPairs R l'.
Proof.
  intros Hsym. induction 1 as [|x l l' Hp IH|x y l|l l' l'' _ IH1 _ IH2]; intros H.
  - exact H.
  - inversion H as [|? ? Hx Hl]; subst. constructor; [|now apply IH].
    eapply Permutation_Forall; eassumption.
  - inversion H as [|? ? Hy Hxl]; subst. inversion Hxl as [|? ? Hx Hl]; subst.
    inversion Hy as [|? ? Hyx Hyl]; subst.
    constructor; [constructor; [now apply Hsym|exact Hx]|].
    now constructor.
  - auto.
Qed.

Lemma validate_chunk_continuity_true chunks :
  fst (validate_chunk_continuity chunks) = true
  <-> in_page_order (sorted_by_start chunks).
Proof.
  unfold validate_chunk_continuity. cbn [fst].
  rewrite <- (continuity_issues_none (sorted_by_start chunks) None).
  destruct (continuity_issues None (sorted_by_start chunks)); split; congruence.
Qed.

(** X11. A chunk list that [validate_chunk_continuity] finds valid has no
    range that runs backwards and no two chunks that share a page,
    wherever they stand in the list. *)
Theorem continuity_valid_disjoint chunks :
  fst (validate_chunk_continuity chunks) = true ->
  valid_chunks chunks /\ ForallOrdPairs ranges_disjoint chunks.
Proof.
  intros H. apply validate_chunk_continuity_true, in_page_order_all in H as [Hfwd Hpairs].
  split.
  - eapply Permutation_Forall; [apply sorted_by_start_perm|exact Hfwd].
  - apply (ForallOrdPairs_perm _ (sorted_by_start chunks));
      [unfold ranges_disjoint; tauto|apply sorted_by_start_perm|].
    eapply ForallOrdPairs_impl; [|exact Hpairs]. unfold ranges_disjoint. tauto.
Qed.

Lemma continuity_valid_disjoint_witness :
  valid_chunks [mkChunk s!"Chapter 2" 6 10; mkChunk s!"Chapter 1" 1 5]
  /\ ForallOrdPairs ranges_disjoint [mkChunk s!"Chapter 2" 6 10; mkChunk s!"Chapter 1" 1 5].
Proof. apply continuity_valid_disjoint. reflexivity. Defined.

Lemma sorted_by_start_in_order chunks :
  in_page_order chunks -> sorted_by_start chunks = chunks.
Proof.
  unfold sorted_by_start.
  induction chunks as [|c rest IH]; [reflexivity|]. cbn [in_page_order fold_right].
  intros [Hc Hrest]. destruct rest as [|d rest]; [reflexivity|].
  destruct Hrest as [[Hd Hgap] Hrest]. rewrite IH by (split; assumption).
  cbn [insert_by_start]. now rewrite (proj2 (Z.leb_le _ _)) by lia.
Qed.

(** X12. Chunks listed in page order, each running forward and starting
    one to eleven pages after the previous one ends, are valid and raise
    no issue. *)
Theorem continuity_in_page_order chunks :
  in_page_order chunks -> validate_chunk_continuity chunks = (true, []).
Proof.
  intros H. unfold validate_chunk_continuity.
  rewrite (sorted_by_start_in_order chunks H).
  now rewrite (proj2 (continuity_issues_none chunks None) H).
Qed.

Lemma continuity_in_page_order_witness :
  validate_chunk_continuity
    [mkChunk s!"Chapter 1" 1 5; mkChunk s!"Chapter 2" 6 10; mkChunk s!"Chapter 3" 11 15]
  = (true, []).
Proof. apply continuity_in_page_order. simpl. lia. Defined.

(** Two sorted lists with the same chunks are the same list when one of
    them has its start pages strictly increasing. *)
Lemma sorted_unique l1 :
  forall l2,
  ForallOrdPairs (fun a b => start_page a < start_page b) l1 ->
  ForallOrdPairs (fun a b => start_page a <= start_page b) l2 ->
  Permutation l1 l2 -> l1 = l2.
Proof.
  induction l1 as [|a l1 IH]; intros l2 H1 H2 Hp.
  - now apply Permutation_nil in Hp.
  - destruct l2 as [|b l2]; [now apply Permutation_sym, Permutation_nil_cons in Hp|].
    inversion H1 as [|? ? Ha Hl1]; subst. inversion H2 as [|? ? Hb Hl2]; subst.
    assert (Hab : a = b).
    { assert (Hin_a : In a (b :: l2)) by (eapply Permutation_in; [exact Hp|now left]).
      assert (Hin_b : In b (a :: l1))
        by (eapply Permutation_in; [symmetry; exact Hp|now left]).
      destruct Hin_a as [->|Hin_a]; [reflexivity|].
      destruct Hin_b as [->|Hin_b]; [reflexivity|].
      rewrite List.Forall_forall in Ha, Hb. specialize (Ha b Hin_b). specialize (Hb a Hin_a).
      lia. }
    subst b. f_equal. apply IH; [exact Hl1|exact Hl2|].
    eapply Permutation_cons_inv. exact Hp.
Qed.

Lemma valid_sorted_same chunks chunks' :
  Permutation chunks chunks' ->
  in_page_order (sorted_by_start chunks) ->
  sorted_by_start chunks' = sorted_by_start chunks.
Proof.
  intros Hp H. symmetry. apply sorted_unique.
  - apply in_page_order_all in H as [Hfwd Hpairs].
    assert (Hboth : forall l, Forall (fun c => start_page c <= end_page c) l ->
              ForallOrdPairs (fun a b => end_page a < start_page b) l ->
              ForallOrdPairs (fun a b => start_page a < start_page b) l).
    { induction l as [|a l IHl]; intros Hf Ho; [constructor|].
      inversion Hf as [|? ? Hfa Hfl]; subst. inversion Ho as [|? ? Hoa Hol]; subst.
      constructor; [|now apply IHl].
      eapply Forall_impl; [exact Hoa|]. simpl. intros; lia. }
    now apply Hboth.
  - apply sorted_by_start_sorted.
  - rewrite !sorted_by_start_perm. exact Hp.
Qed.

(** X13. The verdict of [validate_chunk_continuity] does not depend on the
    order in which the chunks are listed. *)
Theorem continuity_order_independent chunks chunks' :
  Permutation chunks chunks' ->
  fst (validate_chunk_continuity chunks) = fst (validate_chunk_continuity chunks').
Proof.
  intros Hp.
  destruct (fst (validate_chunk_continuity chunks)) eqn:E1,
           (fst (validate_chunk_continuity chunks')) eqn:E2; try reflexivity.
  - apply validate_chunk_continuity_true in E1.
    rewrite <- E2. symmetry. apply validate_chunk_continuity_true.
    now rewrite (valid_sorted_same chunks chunks' Hp E1).
  - apply validate_chunk_continuity_true in E2.
    rewrite <- E1. apply validate_chunk_continuity_true.
    now rewrite (valid_sorted_same chunks' chunks (Permutation_sym Hp) E2).
Qed.

Lemma continuity_order_independent_witness :
  fst (validate_chunk_continuity [mkChunk s!"Chapter 2" 6 10; mkChunk s!"Chapter 1" 1 5])
  = fst (validate_chunk_continuity [mkChunk s!"Chapter 1" 1 5; mkChunk s!"Chapter 2" 6 10]).
Proof. apply continuity_order_independent. apply perm_swap. Defined.

(** ** Chunk matcher, beyond the greedy assignment *)

Lemma candidate_acceptable iou_threshold use_fuzzy_matching p g :
  candidate (at_least_and_positive iou_threshold) use_fuzzy_matching p g
  <-> acceptable_pair iou_threshold use_fuzzy_matching p g.
Proof. unfold candidate, acceptable_pair. now rewrite accept_iff. Qed.

Lemma greedy_match_pairing iou_threshold use_fuzzy_matching predicted pool :
  greedy_match (at_least_and_positive iou_threshold) use_fuzzy_matching predicted pool ->
  length predicted = length pool ->
  exists partners,
    Permutation partners pool
    /\ Forall2 (acceptable_pair iou_threshold use_fuzzy_matching) predicted partners.
Proof.
  induction 1 as [pool|p rest pool i g Hw Hrest IH]; intros Hlen.
  - destruct pool; [|discriminate]. exists []. split; constructor.
  - destruct Hw as (Hi & Hc & _).
    assert (Hlen' : length rest = length (delete i pool)).
    { pose proof (lookup_lt_Some _ _ _ Hi). rewrite length_delete by eauto.
      simpl in Hlen. lia. }
    destruct (IH Hlen') as (partners & Hperm & Hall).
    exists (g :: partners). split.
    + rewrite Hperm. symmetry. now apply delete_Permutation.
    + constructor; [now apply candidate_acceptable|exact Hall].
Qed.

Lemma compare_chunks_pairing (chunks_valid : list Chunk -> bool)
    (predicted gold : list Chunk) (page_tolerance : Z) (iou_threshold : Q)
    (use_fuzzy_matching : bool) :
  compare_chunks chunks_valid predicted gold page_tolerance iou_threshold
    use_fuzzy_matching = true ->
  exists partners,
    Permutation partners gold
    /\ Forall2 (acceptable_pair iou_threshold use_fuzzy_matching) predicted partners.
Proof.
  unfold compare_chunks.
  destruct (negb (chunks_valid predicted && chunks_valid gold)); [discriminate|].
  destruct (negb (len predicted =? len gold)); [discriminate|].
  intros H. apply match_chunks_greedy in H as [Hlen Hg].
  now apply greedy_match_pairing.
Qed.

(** X14. A true verdict of [compare_chunks] comes with a one-to-one
    pairing: the gold chunks can be arranged so that every predicted chunk
    faces a gold chunk whose title matches it and whose IoU with it is at
    least the threshold and above zero. *)
Theorem compare_chunks_true_pairing (chunks_valid : list Chunk -> bool)
    (predicted gold : list Chunk) (page_tolerance : Z) (iou_threshold : Q)
    (use_fuzzy_matching : bool) :
  compare_chunks chunks_valid predicted gold page_tolerance iou_threshold
    use_fuzzy_matching = true ->
  exists partners,
    Permutation partners gold
    /\ Forall2 (acceptable_pair iou_threshold use_fuzzy_matching) predicted partners.
Proof. apply compare_chunks_pairing. Qed.

Lemma compare_chunks_true_pairing_witness :
  exists partners,
    Permutation partners
      [mkChunk s!"Fire Piping System Overview" 1 3; mkChunk s!"Material Specifications" 4 6]
    /\ Forall2 (acceptable_pair default_iou_threshold true)
         [mkChunk s!"Material Specs" 4 6; mkChunk s!"Fire Piping System Overview" 1 3]
         partners.
Proof.
  apply (compare_chunks_true_pairing no_jsonschema _ _ 1). vm_compute. reflexivity.
Defined.

(** X15. Under a threshold above 1 no pair is acceptable: [compare_chunks]
    answers false whenever there is a predicted chunk at all. *)
Theorem compare_chunks_threshold_above_one (chunks_valid : list Chunk -> bool)
    (predicted gold : list Chunk) (page_tolerance : Z) (iou_threshold : Q)
    (use_fuzzy_matching : bool) :
  (1 < iou_threshold)%Q ->
  predicted <> [] ->
  compare_chunks chunks_valid predicted gold page_tolerance iou_threshold
    use_fuzzy_matching = false.
Proof.
  intros Hthr Hne.
  destruct (compare_chunks chunks_valid predicted gold page_tolerance iou_threshold
              use_fuzzy_matching) eqn:E; [|reflexivity].
  apply compare_chunks_pairing in E as (partners & _ & Hall).
  destruct Hall as [|p g ps gs (_ & Hle & _) _]; [contradiction|].
  exfalso. apply (Qlt_not_le _ _ Hthr).
  eapply Qle_trans; [exact Hle|apply calculate_iou_bounds].
Qed.

Lemma compare_chunks_threshold_above_one_witness :
  compare_chunks no_jsonschema [mkChunk s!"Scope" 1 3] [mkChunk s!"Scope" 1 3] 1 (3 # 2) true
  = false.
Proof. apply compare_chunks_threshold_above_one; [reflexivity|discriminate]. Defined.

Lemma ranges_disjoint_iou_zero p g :
  start_page p <= end_page p -> start_page g <= end_page g ->
  ranges_disjoint p g -> (calculate_iou p g == 0)%Q.
Proof.
  intros Hp Hg Hd. unfold calculate_iou, calculate_iou_advanced, int_page, ranges_disjoint in *.
  cbn [fst]. rewrite ratio_or_zero_eq_zero by lia. lia.
Qed.

(** A chunk list whose ranges run forward and are pairwise disjoint
    matches every rearrangement of itself: each chunk overlaps no gold
    chunk but its own copy. *)
Lemma match_chunks_rearranged iou_threshold use_fuzzy_matching chunks :
  (iou_threshold <= 1)%Q ->
  valid_chunks chunks ->
  ForallOrdPairs ranges_disjoint chunks ->
  forall pool, Permutation chunks pool ->
  match_chunks iou_threshold use_fuzzy_matching chunks pool = true.
Proof.
  intros Hthr Hv Hd. induction Hd as [|c rest Hc Hrest IH]; intros pool Hp.
  - apply Permutation_nil in Hp. now subst pool.
  - inversion Hv as [|? ? Hfc Hfrest]; subst. cbn [match_chunks].
    pose proof (scan_gold_winner iou_threshold use_fuzzy_matching c pool) as St.
    destruct (scan_gold iou_threshold use_fuzzy_matching c pool None 0%Q) as [[b|] s];
      unfold scan_state in St; cbn [fst snd] in St.
    + destruct St as [_ [i Hw]]. rewrite (list_remove_winner _ _ _ _ _ _ Hw).
      destruct Hw as (Hi & Hcand & _).
      assert (Hb : b = c).
      { assert (Hin : In b (c :: rest)).
        { eapply Permutation_in; [symmetry; exact Hp|].
          apply list_elem_of_In. eapply list_elem_of_lookup_2. exact Hi. }
        destruct Hin as [<-|Hin]; [reflexivity|]. exfalso.
        apply candidate_acceptable in Hcand as (_ & _ & Hpos).
        rewrite List.Forall_forall in Hc, Hfrest.
        rewrite (ranges_disjoint_iou_zero c b Hfc (Hfrest b Hin) (Hc b Hin)) in Hpos.
        exact (Qlt_irrefl _ Hpos). }
      subst b. apply IH; [exact Hfrest|].
      eapply Permutation_cons_inv. rewrite Hp. now apply delete_Permutation.
    + destruct St as [_ Hnone]. exfalso.
      assert (Hin : In c pool) by (eapply Permutation_in; [exact Hp|now left]).
      apply list_elem_of_In, list_elem_of_lookup_1 in Hin as [j Hj].
      apply (Hnone j c Hj), candidate_acceptable. split; [apply title_match_refl|].
      pose proof (calculate_iou_self c Hfc) as H1. split.
      * eapply Qle_trans; eassumption.
      * eapply Qlt_le_trans; [|exact H1]. reflexivity.
Qed.

(** X16. A chunk list that [validate_chunk_continuity] finds valid matches
    every rearrangement of itself under the default thresholds: for such
    lists the order of the gold chunks does not matter. *)
Theorem compare_chunks_rearranged (chunks_valid : list Chunk -> bool)
    (chunks gold : list Chunk) (page_tolerance : Z) (use_fuzzy_matching : bool) :
  chunks_valid chunks = true ->
  chunks_valid gold = true ->
  fst (validate_chunk_continuity chunks) = true ->
  Permutation chunks gold ->
  compare_chunks chunks_valid chunks gold page_tolerance default_iou_threshold
    use_fuzzy_matching = true.
Proof.
  intros Hc Hg Hvalid Hp. unfold compare_chunks. rewrite Hc, Hg. cbn [andb negb].
  unfold len. rewrite (Permutation_length Hp), Z.eqb_refl. cbn [negb].
  apply validate_chunk_continuity_true, in_page_order_all in Hvalid as [Hfwd Hpairs].
  apply match_chunks_rearranged; [unfold default_iou_threshold, Qle; simpl; lia| | |exact Hp].
  - eapply Permutation_Forall; [apply sorted_by_start_perm|exact Hfwd].
  - apply (ForallOrdPairs_perm _ (sorted_by_start chunks));
      [unfold ranges_disjoint; tauto|apply sorted_by_start_perm|].
    eapply ForallOrdPairs_impl; [|exact Hpairs]. unfold ranges_disjoint. tauto.
Qed.

Lemma compare_chunks_rearranged_witness :
  compare_chunks no_jsonschema
    [mkChunk s!"Chapter 1" 1 5; mkChunk s!"Chapter 2" 6 10]
    [mkChunk s!"Chapter 2" 6 10; mkChunk s!"Chapter 1" 1 5]
    1 default_iou_threshold true = true.
Proof. apply compare_chunks_rearranged; try reflexivity. apply perm_swap. Defined.

(** ** Entities *)

Lemma normalize_entity_stages (e e' : Entity) :
  normalize_entity e = ret e' ->
  exists n1 n2,
    (match e !! "material"%string with
     | Some v => exists s, v = VStr s
                 /\ n1 = <["material"%string := VStr (normalize_material s)]> e
     | None => n1 = e
     end)
    /\ (match n1 !! "diameter"%string with
        | Some (VStr s) => exists d, normalize_diameter s = ret d
                           /\ n2 = <["diameter"%string := VFloat d]> n1
        | _ => n2 = n1
        end)
    /\ (match n2 !! "location_page"%string with
        | Some v => exists p, normalize_page_number v = ret p
                    /\ e' = <["location_page"%string := VInt p]> n2
        | None => e' = n2
        end).
Proof.
  unfold normalize_entity. intros H.
  apply bind_ret_inv in H as [n1 [H1 H]]. apply bind_ret_inv in H as [n2 [H2 H]].
  exists n1, n2. repeat split.
  - destruct (e !! "material"%string) as [v|]; [|now injection H1].
    apply bind_ret_inv in H1 as [m [Hm H1]]. injection H1 as <-.
    destruct v; try discriminate. injection Hm as <-. eauto.
  - destruct (n1 !! "diameter"%string) as [[| | |s]|]; try now injection H2.
    apply bind_ret_inv in H2 as [d [Hd H2]]. injection H2 as <-. eauto.
  - destruct (n2 !! "location_page"%string) as [v|]; [|now injection H].
    apply bind_ret_inv in H as [p [Hp H]]. injection H as <-. eauto.
Qed.

(** X17. [normalize_entity] touches three fields only: every other field
    of the entity, its [id], [type] and [schedule] among them, is in the
    result as it was, and the result has the fields of the entity, no more
    and no fewer. *)
Theorem normalize_entity_keeps_other_fields (e e' : Entity) :
  normalize_entity e = ret e' ->
  (forall k, k <> "material"%string -> k <> "diameter"%string ->
             k <> "location_page"%string -> e' !! k = e !! k)
  /\ dom e' = dom e.
Proof.
  intros H. destruct (normalize_entity_stages e e' H) as (n1 & n2 & H1 & H2 & H3).
  assert (S1 : (forall k, k <> "material"%string -> n1 !! k = e !! k) /\ dom n1 = dom e).
  { destruct (e !! "material"%string) as [v|] eqn:E; [|now subst n1].
    destruct H1 as (s & -> & ->). split.
    - intros k Hk. now rewrite lookup_insert_ne.
    - apply dom_insert_lookup_L. eauto. }
  assert (S2 : (forall k, k <> "diameter"%string -> n2 !! k = n1 !! k) /\ dom n2 = dom n1).
  { destruct (n1 !! "diameter"%string) as [[| | |s]|] eqn:E; try now subst n2.
    destruct H2 as (d & _ & ->). split.
    - intros k Hk. now rewrite lookup_insert_ne.
    - apply dom_insert_lookup_L. eauto. }
  assert (S3 : (forall k, k <> "location_page"%string -> e' !! k = n2 !! k)
               /\ dom e' = dom n2).
  { destruct (n2 !! "location_page"%string) as [v|] eqn:E; [|now subst e'].
    destruct H3 as (p & _ & ->). split.
    - intros k Hk. now rewrite lookup_insert_ne.
    - apply dom_insert_lookup_L. eauto. }
  destruct S1 as [L1 D1], S2 as [L2 D2], S3 as [L3 D3]. split.
  - intros k K1 K2 K3. now rewrite L3, L2, L1.
  - now rewrite D3, D2, D1.
Qed.

Lemma normalize_entity_keeps_other_fields_witness :
  exists e',
    normalize_entity (<["diameter"%string := VStr s!"2 inch"]> sample_pipe) = ret e'
    /\ e' !! "schedule"%string = Some (VStr s!"40").
Proof.
  eexists. split; [vm_compute; reflexivity|].
  refine (eq_trans
            (proj1 (normalize_entity_keeps_other_fields
                      (<["diameter"%string := VStr s!"2 inch"]> sample_pipe) _ _)
               "schedule"%string _ _ _) _);
    [vm_compute; reflexivity|discriminate|discriminate|discriminate|reflexivity].
Defined.

(** X18. What [normalize_entity] returns is normalized: its material, if
    it has one, is the normalized text of the material it was given, its
    diameter is not a string any more, and its page, if it has one, is an
    integer. *)
Theorem normalize_entity_normalizes (e e' : Entity) :
  normalize_entity e = ret e' ->
  (forall v, e' !! "material"%string = Some v ->
     exists s, e !! "material"%string = Some (VStr s) /\ v = VStr (normalize_material s))
  /\ (forall s, e' !! "diameter"%string <> Some (VStr s))
  /\ page_is_int e' = true.
Proof.
  intros H. destruct (normalize_entity_stages e e' H) as (n1 & n2 & H1 & H2 & H3).
  split; [|split].
  - intros v Hv.
    assert (Hn2 : n2 !! "material"%string = Some v).
    { destruct (n2 !! "location_page"%string) as [pv|]; [|now subst e'].
      destruct H3 as (p & _ & ->). now rewrite lookup_insert_ne in Hv. }
    assert (Hn1 : n1 !! "material"%string = Some v).
    { destruct (n1 !! "diameter"%string) as [[| | |s]|]; try now subst n2.
      destruct H2 as (d & _ & ->). now rewrite lookup_insert_ne in Hn2. }
    destruct (e !! "material"%string) as [w|] eqn:E.
    + destruct H1 as (s & -> & ->). rewrite lookup_insert_eq in Hn1.
      injection Hn1 as <-. eauto.
    + subst n1. congruence.
  - intros s Hs.
    assert (Hn2 : n2 !! "diameter"%string = Some (VStr s)).
    { destruct (n2 !! "location_page"%string) as [pv|]; [|now subst e'].
      destruct H3 as (p & _ & ->). now rewrite lookup_insert_ne in Hs. }
    destruct (n1 !! "diameter"%string) as [[| | |s']|] eqn:E; try (subst n2; congruence).
    destruct H2 as (d & _ & ->). now rewrite lookup_insert_eq in Hn2.
  - exact (normalize_entity_page_is_int e e' H).
Qed.

Lemma normalize_entity_normalizes_witness :
  exists e',
    normalize_entity (<["diameter"%string := VStr s!"2 inch"]> sample_pipe) = ret e'
    /\ page_is_int e' = true.
Proof.
  eexists. split; [vm_compute; reflexivity|].
  refine (proj2 (proj2 (normalize_entity_normalizes
                          (<["diameter"%string := VStr s!"2 inch"]> sample_pipe) _ _))).
  vm_compute. reflexivity.
Defined.

(** *** Matching two entities *)

Lemma Qeq_bool_sym p q : Qeq_bool p q = Qeq_bool q p.
Proof.
  destruct (Qeq_bool p q) eqn:E1, (Qeq_bool q p) eqn:E2; try reflexivity.
  - apply Qeq_bool_iff in E1. apply Qeq_sym, Qeq_bool_iff in E1. congruence.
  - apply Qeq_bool_iff in E2. apply Qeq_sym, Qeq_bool_iff in E2. congruence.
Qed.

Lemma float_eqb_sym f g : float_eqb f g = float_eqb g f.
Proof. destruct f, g; simpl; try reflexivity. apply Qeq_bool_sym. Qed.

Lemma py_eqb_sym v w : py_eqb v w = py_eqb w v.
Proof.
  destruct v, w; simpl; try reflexivity.
  - apply Z.eqb_sym.
  - apply float_eqb_sym.
  - apply str_eqb_sym.
Qed.

Lemma fields_agree_sym fields (e1 e2 : Entity) :
  fields_agree fields e1 e2 = fields_agree fields e2 e1.
Proof.
  induction fields as [|f fields IH]; [reflexivity|]. cbn [fields_agree].
  destruct (e1 !! f) as [v1|], (e2 !! f) as [v2|]; try exact IH.
  now rewrite (py_eqb_sym v1 v2), IH.
Qed.

(** Whether a difference of two floats exceeds 1 is read off its magnitude. *)
Lemma exceeds_by_magnitude x :
  float_gt_one (float_abs (fl x))
  = if Qle_bool overflow_threshold (Qabs x) then true
    else if Qle_bool (Qabs x) underflow_threshold then false
    else negb (Qle_bool (Qabs x) 1).
Proof.
  unfold fl. destruct (Qle_bool overflow_threshold (Qabs x)).
  - now destruct (Qle_bool 0 x).
  - now destruct (Qle_bool (Qabs x) underflow_threshold).
Qed.

Lemma exceeds_sym_fin p q :
  float_gt_one (float_abs (fl (p + - q))) = float_gt_one (float_abs (fl (q + - p))).
Proof.
  rewrite !exceeds_by_magnitude.
  assert (E : (Qabs (p + - q) == Qabs (q + - p))%Q).
  { rewrite <- (Qabs_opp (p + - q)). apply Qabs_wd. ring. }
  rewrite (Qleb_comp _ _ (Qeq_refl overflow_threshold) _ _ E).
  rewrite (Qleb_comp _ _ E _ _ (Qeq_refl underflow_threshold)).
  now rewrite (Qleb_comp _ _ E _ _ (Qeq_refl 1%Q)).
Qed.

Lemma float_diff_sym f g :
  float_gt_one (float_abs (float_add f (float_neg g)))
  = float_gt_one (float_abs (float_add g (float_neg f))).
Proof. destruct f, g; simpl; try reflexivity. apply exceeds_sym_fin. Qed.

Lemma page_diff_exceeds_sym v w : page_diff_exceeds v w = page_diff_exceeds w v.
Proof.
  destruct v as [|a|f|s], w as [|b|g|t]; simpl; try reflexivity.
  - do 2 f_equal. lia.
  - f_equal. apply (float_diff_sym (Fin (inject_Z a)) g).
  - f_equal. apply (float_diff_sym f (Fin (inject_Z b))).
  - f_equal. apply float_diff_sym.
Qed.

(** X19. [entities_match] is symmetric: the order of the two entities
    changes neither the answer nor, where the pages cannot be subtracted,
    the exception. *)
Theorem entities_match_symmetric (e1 e2 : Entity) :
  entities_match e1 e2 = entities_match e2 e1.
Proof.
  unfold entities_match. rewrite (fields_agree_sym key_fields e1 e2).
  destruct (negb (fields_agree key_fields e2 e1)); [reflexivity|].
  destruct (e1 !! "location_page"%string) as [p1|], (e2 !! "location_page"%string) as [p2|];
    try reflexivity.
  now rewrite (page_diff_exceeds_sym p1 p2).
Qed.

Lemma float_eqb_refl f : f <> NaN -> float_eqb f f = true.
Proof.
  destruct f; simpl; try reflexivity; [|congruence].
  intros _. apply Qeq_bool_iff. reflexivity.
Qed.

Lemma py_eqb_refl v : v <> VFloat NaN -> py_eqb v v = true.
Proof.
  destruct v; simpl; intros H; try reflexivity.
  - apply Z.eqb_refl.
  - apply float_eqb_refl. congruence.
  - apply str_eqb_refl.
Qed.

Lemma fields_agree_refl fields (e : Entity) : no_nan e -> fields_agree fields e e = true.
Proof.
  intros Hn. induction fields as [|f fields IH]; [reflexivity|]. cbn [fields_agree].
  destruct (e !! f) as [v|] eqn:E; [|exact IH].
  rewrite py_eqb_refl; [exact IH|]. intros ->. exact (Hn f E).
Qed.

(** X20. An entity with an integer page (or none) and no not-a-number
    field matches itself. *)
Theorem entities_match_reflexive (e : Entity) :
  no_nan e -> page_is_int e = true -> entities_match e e = ret true.
Proof.
  intros Hn Hp. unfold entities_match. rewrite (fields_agree_refl _ e Hn). cbn [negb].
  unfold page_is_int in Hp.
  destruct (e !! "location_page"%string) as [[|p| |]|]; try discriminate; try reflexivity.
  cbn [page_diff_exceeds bind ret]. now rewrite Z.sub_diag.
Qed.

Lemma sample_pipe_no_nan : no_nan sample_pipe.
Proof.
  intros k. unfold sample_pipe.
  repeat (rewrite lookup_insert; case_decide; [discriminate|]).
  now rewrite lookup_empty.
Qed.

Lemma entities_match_reflexive_witness : entities_match sample_pipe sample_pipe = ret true.
Proof. apply entities_match_reflexive; [exact sample_pipe_no_nan|reflexivity]. Defined.




(** *** Scoring two lists of entities *)

Lemma entities_match_returns (e1 e2 : Entity) :
  page_is_int e1 = true -> page_is_int e2 = true ->
  entities_match e1 e2 = ret (match_bool e1 e2).
Proof.
  unfold match_bool, entities_match, page_is_int. intros H1 H2.
  destruct (negb (fields_agree key_fields e1 e2)); [reflexivity|].
  destruct (e1 !! "location_page"%string) as [[|p1| |]|]; try discriminate;
    destruct (e2 !! "location_page"%string) as [[|p2| |]|]; try discriminate;
    try reflexivity.
  cbn [page_diff_exceeds bind ret]. now destruct (1 <? Z.abs (p1 - p2)).
Qed.

Lemma normalize_all_pages entities :
  forall normalized,
  normalize_all entities = ret normalized ->
  Forall (fun e => page_is_int e = true) normalized.
Proof.
  induction entities as [|e entities IH]; intros normalized H.
  - injection H as <-. constructor.
  - cbn [normalize_all] in H. apply bind_ret_inv in H as [n [Hn H]].
    apply bind_ret_inv in H as [ns [Hns H]]. injection H as <-.
    constructor; [exact (normalize_entity_page_is_int e n Hn)|now apply IH].
Qed.

Lemma some_gold_matches_returns n norm_gold :
  page_is_int n = true ->
  Forall (fun e => page_is_int e = true) norm_gold ->
  some_gold_matches n norm_gold = ret (existsb (match_bool n) norm_gold).
Proof.
  intros Hn. induction 1 as [|g norm_gold Hg _ IH]; [reflexivity|].
  cbn [some_gold_matches existsb]. rewrite (entities_match_returns n g Hn Hg).
  cbn [bind ret]. destruct (match_bool n g); [reflexivity|exact IH].
Qed.

Lemma count_true_positives_returns norm_predicted norm_gold :
  Forall (fun e => page_is_int e = true) norm_predicted ->
  Forall (fun e => page_is_int e = true) norm_gold ->
  forall true_positives,
  count_true_positives norm_predicted norm_gold true_positives
  = ret (true_positives
         + len (List.filter (fun n => existsb (match_bool n) norm_gold) norm_predicted)).
Proof.
  intros Hp Hg. induction Hp as [|n norm_predicted Hn _ IH]; intros tp.
  - cbn. rewrite len_nil. f_equal. lia.
  - cbn [count_true_positives List.filter].
    rewrite (some_gold_matches_returns n norm_gold Hn Hg). cbn [bind ret].
    destruct (existsb (match_bool n) norm_gold); rewrite IH; [|reflexivity].
    rewrite len_cons. f_equal. lia.
Qed.

(** What [score_entities] returns: the score of a failed validation or of
    one empty list, the score of two empty lists, or two quotients of one
    count of true positives and their harmonic mean. *)
Lemma score_entities_cases entities_valid predicted gold p r f :
  score_entities entities_valid predicted gold = ret (p, r, f) ->
  (p, r, f) = (0, 0, 0)%Q \/ (p, r, f) = (1, 1, 1)%Q
  \/ exists tp, 0 <= tp /\ 0 < len predicted /\ 0 < len gold
       /\ p = int_div tp (len predicted) /\ r = int_div tp (len gold)
       /\ f = (if negb (Qle_bool (p + r) 0) then (2 * (p * r) / (p + r))%Q else 0%Q).
Proof.
  unfold score_entities.
  destruct (negb (entities_valid predicted && entities_valid gold));
    [intros [= <- <- <-]; now left|].
  destruct predicted as [|e predicted]; [destruct gold; intros [= <- <- <-]; tauto|].
  destruct gold as [|g gold]; [intros [= <- <- <-]; now left|].
  intros H. apply bind_ret_inv in H as [np [_ H]].
  apply bind_ret_inv in H as [ng [_ H]]. apply bind_ret_inv in H as [tp [Htp H]].
  injection H as <- <- <-. apply count_true_positives_bounds in Htp.
  right. right. exists tp. rewrite !len_cons.
  pose proof (len_nonneg predicted). pose proof (len_nonneg gold).
  repeat split; try reflexivity; lia.
Qed.

(** X22. Precision and recall are quotients of one count: whatever
    [score_entities] returns, the precision is zero exactly when the recall
    is, and the longer list has the smaller quotient, so that the precision
    does not exceed the recall when there are at least as many predicted
    entities as gold ones, and conversely. *)
Theorem precision_recall_order entities_valid predicted gold p r f :
  score_entities entities_valid predicted gold = ret (p, r, f) ->
  ((p == 0)%Q <-> (r == 0)%Q)
  /\ (len gold <= len predicted -> (p <= r)%Q)
  /\ (len predicted <= len gold -> (r <= p)%Q).
Proof.
  intros H. apply score_entities_cases in H as [[= -> -> _]|[[= -> -> _]|H]].
  - split; [tauto|]. split; intros _; apply Qle_refl.
  - split; [tauto|]. split; intros _; apply Qle_refl.
  - destruct H as (tp & Htp & Hp & Hg & -> & -> & _).
    generalize dependent (len predicted). generalize dependent (len gold).
    intros lg Hg lp Hp. unfold int_div, Qeq, Qle. cbn [Qnum Qden].
    rewrite !Z2Pos.id by lia. split; [lia|]. split; intros Hle; nia.
Qed.

Lemma precision_recall_order_witness :
  ((1 # 2 == 0)%Q <-> (1 == 0)%Q)
  /\ (len [sample_pipe]
      <= len [sample_pipe; <["material"%string := VStr s!"copper"]> sample_pipe] ->
      (1 # 2 <= 1)%Q)
  /\ (len [sample_pipe; <["material"%string := VStr s!"copper"]> sample_pipe]
      <= len [sample_pipe] -> (1 <= 1 # 2)%Q).
Proof.
  apply (precision_recall_order no_jsonschema _ _ (1 # 2) 1%Q (4 # 6)).
  vm_compute. reflexivity.
Defined.

(** The harmonic mean of two numbers that are not negative is zero exactly
    when one of them is. *)
Lemma harmonic_zero (p r : Q) :
  (0 <= p)%Q -> (0 <= r)%Q -> (0 < p + r)%Q ->
  (0 <= 2 * (p * r) / (p + r))%Q
  /\ ((2 * (p * r) / (p + r) == 0)%Q <-> (p == 0)%Q \/ (r == 0)%Q).
Proof.
  intros Hp Hr Hs. split; [|split].
  - apply Qle_shift_div_l; [exact Hs|]. rewrite Qmult_0_l.
    apply Qmult_le_0_compat; [discriminate|now apply Qmult_le_0_compat].
  - unfold Qdiv. intros H. apply Qmult_integral in H as [H|H].
    + apply Qmult_integral in H as [H|H]; [discriminate H|].
      now apply Qmult_integral in H.
    + exfalso. assert (Hn : ~ (p + r == 0)%Q) by (intros E; rewrite E in Hs; discriminate Hs).
      apply Qmult_inv_r in Hn. rewrite H, Qmult_0_r in Hn. discriminate Hn.
  - intros [H|H]; rewrite H; unfold Qdiv; ring.
Qed.

Lemma sum_not_positive (p r : Q) :
  (0 <= p)%Q -> (0 <= r)%Q -> (p + r <= 0)%Q -> (p == 0)%Q /\ (r == 0)%Q.
Proof.
  intros Hp Hr Hs. split; apply Qle_antisym; try assumption.
  - eapply Qle_trans; [|exact Hs]. rewrite <- (Qplus_0_r p) at 1.
    now apply Qplus_le_compat; [apply Qle_refl|].
  - eapply Qle_trans; [|exact Hs]. rewrite <- (Qplus_0_l r) at 1.
    now apply Qplus_le_compat; [|apply Qle_refl].
Qed.

(** X23. The F1 score that [score_entities] returns is never negative, and
    it is zero exactly when the precision or the recall is zero. *)
Theorem f1_zero_iff entities_valid predicted gold p r f :
  score_entities entities_valid predicted gold = ret (p, r, f) ->
  (0 <= f)%Q /\ ((f == 0)%Q <-> (p == 0)%Q \/ (r == 0)%Q).
Proof.
  intros H. apply score_entities_cases in H as [[= -> -> ->]|[[= -> -> ->]|H]].
  - split; [discriminate|]. split; [now left|reflexivity].
  - split; [discriminate|]. split; [discriminate|intros [H|H]; discriminate H].
  - destruct H as (tp & Htp & Hlp & Hlg & Ep & Er & ->).
    assert (Hp : (0 <= p)%Q) by (subst p; unfold int_div, Qle; cbn [Qnum Qden]; lia).
    assert (Hr : (0 <= r)%Q) by (subst r; unfold int_div, Qle; cbn [Qnum Qden]; lia).
    clear Ep Er. destruct (negb (Qle_bool (p + r) 0)) eqn:E.
    + apply negb_true_iff, Qle_bool_false in E. now apply harmonic_zero.
    + apply negb_false_iff, Qle_bool_iff in E.
      destruct (sum_not_positive p r Hp Hr E) as [Hp0 _].
      split; [apply Qle_refl|]. split; [now left|reflexivity].
Qed.

Lemma f1_zero_iff_witness :
  (0 <= 4 # 6)%Q /\ ((4 # 6 == 0)%Q <-> (1 # 2 == 0)%Q \/ (1 == 0)%Q).
Proof.
  apply (f1_zero_iff no_jsonschema
           [sample_pipe; <["material"%string := VStr s!"copper"]> sample_pipe] [sample_pipe]).
  vm_compute. reflexivity.
Defined.

(** X24. Comparing normalized entities raises nothing: [entities_match]
    returns an answer on every two entities that [normalize_entity]
    returned, and so the matching loops of [score_entities] return a count
    once the entities of the two lists have been normalized. *)
Theorem matching_normalized_never_raises predicted gold norm_predicted norm_gold :
  normalize_all predicted = ret norm_predicted ->
  normalize_all gold = ret norm_gold ->
  (forall pred_entity gold_entity,
     In pred_entity norm_predicted -> In gold_entity norm_gold ->
     exists b, entities_match pred_entity gold_entity = ret b)
  /\ exists true_positives,
       count_true_positives norm_predicted norm_gold 0 = ret true_positives.
Proof.
  intros Hp Hg.
  pose proof (normalize_all_pages _ _ Hp) as Pp.
  pose proof (normalize_all_pages _ _ Hg) as Pg. split.
  - intros n g Hn Hin. rewrite List.Forall_forall in Pp, Pg.
    exists (match_bool n g). apply entities_match_returns; auto.
  - rewrite (count_true_positives_returns norm_predicted norm_gold Pp Pg). eauto.
Qed.

Lemma matching_normalized_never_raises_witness :
  (forall pred_entity gold_entity,
     In pred_entity [sample_pipe] -> In gold_entity [sample_pipe] ->
     exists b, entities_match pred_entity gold_entity = ret b)
  /\ exists true_positives,
       count_true_positives [sample_pipe] [sample_pipe] 0 = ret true_positives.
Proof.
  apply (matching_normalized_never_raises [sample_pipe] [sample_pipe]);
    vm_compute; reflexivity.
Defined.

Lemma match_bool_refl n : no_nan n -> page_is_int n = true -> match_bool n n = true.
Proof.
  intros Hn Hp. unfold match_bool.
  rewrite (entities_match_returns n n Hp Hp).
  pose proof (entities_match_returns n n Hp Hp) as H.
  unfold entities_match in H |- *. rewrite (fields_agree_refl _ n Hn) in *. cbn [negb] in *.
  unfold page_is_int in Hp.
  destruct (n !! "location_page"%string) as [[|p| |]|]; try discriminate.
  - cbn [page_diff_exceeds bind ret] in H. rewrite Z.sub_diag in H. now injection H as <-.
  - now injection H as <-.
Qed.

Lemma filter_all {A : Type} (f : A -> bool) l :
  (forall x, In x l -> f x = true) -> List.filter f l = l.
Proof.
  induction l as [|x l IH]; intros H; [reflexivity|]. simpl.
  rewrite (H x) by now left. f_equal. apply IH. intros y Hy. apply H. now right.
Qed.

(** X25. A list of entities scored against itself gets the full score:
    when the list passes the validation, every entity normalizes and no
    normalized field is not-a-number, precision, recall and F1 are all 1. *)
Theorem score_entities_identical entities_valid entities normalized :
  entities_valid entities = true ->
  normalize_all entities = ret normalized ->
  Forall no_nan normalized ->
  exists p r f,
    score_entities entities_valid entities entities = ret (p, r, f)
    /\ (p == 1)%Q /\ (r == 1)%Q /\ (f == 1)%Q.
Proof.
  intros Hv Hn Hnan. unfold score_entities. rewrite Hv. cbn [andb negb].
  destruct entities as [|e entities].
  { exists 1%Q, 1%Q, 1%Q. repeat split; reflexivity. }
  rewrite Hn. cbn [bind ret].
  pose proof (normalize_all_pages _ _ Hn) as Hpages.
  rewrite (count_true_positives_returns normalized normalized Hpages Hpages). cbn [bind ret].
  rewrite filter_all.
  2:{ intros n Hin. apply existsb_exists. exists n. split; [exact Hin|].
      rewrite List.Forall_forall in Hnan, Hpages. apply match_bool_refl; auto. }
  apply normalize_all_length in Hn.
  assert (Hlen : len normalized = len (e :: entities)) by (unfold len; now rewrite Hn).
  rewrite Z.add_0_l, Hlen.
  assert (Hpos : 0 < len (e :: entities))
    by (rewrite len_cons; pose proof (len_nonneg entities); lia).
  set (n := len (e :: entities)) in *.
  assert (Hone : (int_div n n == 1)%Q).
  { unfold int_div, Qeq. cbn [Qnum Qden]. lia. }
  assert (Hsum : Qle_bool (int_div n n + int_div n n) 0 = false).
  { apply Qle_bool_false. rewrite Hone. reflexivity. }
  rewrite Hsum. cbn [negb].
  eexists _, _, _. split; [reflexivity|]. repeat split; try exact Hone.
  rewrite Hone. reflexivity.
Qed.

Lemma score_entities_identical_witness :
  exists p r f,
    score_entities no_jsonschema [sample_pipe] [sample_pipe] = ret (p, r, f)
    /\ (p == 1)%Q /\ (r == 1)%Q /\ (f == 1)%Q.
Proof.
  apply (score_entities_identical no_jsonschema [sample_pipe] [sample_pipe]).
  - reflexivity.
  - vm_compute. reflexivity.
  - constructor; [exact sample_pipe_no_nan|constructor].
Defined.

Lemma normalize_all_perm entities entities' :
  Permutation entities entities' ->
  forall normalized, normalize_all entities = ret normalized ->
  exists normalized',
    normalize_all entities' = ret normalized' /\ Permutation normalized normalized'.
Proof.
  induction 1 as [|x l l' _ IH|x y l|l l' l'' _ IH1 _ IH2]; intros normalized H.
  - exists normalized. split; [exact H|reflexivity].
  - cbn [normalize_all] in H |- *. apply bind_ret_inv in H as [n [Hn H]].
    apply bind_ret_inv in H as [ns [Hns H]]. injection H as <-.
    destruct (IH ns Hns) as (ns' & Hns' & Hp). exists (n :: ns').
    rewrite Hn, Hns'. split; [reflexivity|now constructor].
  - cbn [normalize_all] in H |- *. apply bind_ret_inv in H as [ny [Hy H]].
    apply bind_ret_inv in H as [ns [H Hret]]. injection Hret as <-.
    apply bind_ret_inv in H as [nx [Hx H]]. apply bind_ret_inv in H as [nl [Hl H]].
    injection H as <-. exists (nx :: ny :: nl).
    rewrite Hx, Hy, Hl. split; [reflexivity|constructor].
  - destruct (IH1 normalized H) as (n' & Hn' & Hp1).
    destruct (IH2 n' Hn') as (n'' & Hn'' & Hp2).
    exists n''. split; [exact Hn''|now transitivity n'].
Qed.

Lemma existsb_perm {A : Type} (f : A -> bool) l l' :
  Permutation l l' -> existsb f l = existsb f l'.
Proof.
  induction 1 as [|x l l' _ IH|x y l|l l' l'' _ IH1 _ IH2]; simpl.
  - reflexivity.
  - now rewrite IH.
  - now destruct (f x), (f y).
  - congruence.
Qed.

Lemma filter_length_perm {A : Type} (f : A -> bool) l l' :
  Permutation l l' -> length (List.filter f l) = length (List.filter f l').
Proof.
  induction 1 as [|x l l' _ IH|x y l|l l' l'' _ IH1 _ IH2]; simpl.
  - reflexivity.
  - destruct (f x); simpl; now rewrite IH.
  - now destruct (f x), (f y).
  - congruence.
Qed.

(** X26. The score does not depend on the order of either list: when
    [score_entities] returns a score, it returns the same score for the
    predicted and the gold entities rearranged, the lists passing the
    validation before and after. *)
Theorem score_entities_order_independent entities_valid predicted predicted' gold gold' score :
  entities_valid predicted = true -> entities_valid gold = true ->
  entities_valid predicted' = true -> entities_valid gold' = true ->
  Permutation predicted predicted' ->
  Permutation gold gold' ->
  score_entities entities_valid predicted gold = ret score ->
  score_entities entities_valid predicted' gold' = ret score.
Proof.
  intros Vp Vg Vp' Vg' Pp Pg. unfold score_entities.
  rewrite Vp, Vg, Vp', Vg'. cbn [andb negb].
  destruct predicted as [|e predicted].
  { apply Permutation_nil in Pp. subst predicted'.
    destruct gold as [|g gold].
    - apply Permutation_nil in Pg. now subst gold'.
    - destruct gold' as [|g' gold']; [|exact (fun H => H)].
      now apply Permutation_sym, Permutation_nil in Pg. }
  destruct predicted' as [|e' predicted'];
    [now apply Permutation_sym, Permutation_nil in Pp|].
  destruct gold as [|g gold].
  { apply Permutation_nil in Pg. now subst gold'. }
  destruct gold' as [|g' gold']; [now apply Permutation_sym, Permutation_nil in Pg|].
  intros H. apply bind_ret_inv in H as [np [Hnp H]].
  apply bind_ret_inv in H as [ng [Hng H]].
  destruct (normalize_all_perm _ _ Pp np Hnp) as (np' & Hnp' & Ppn).
  destruct (normalize_all_perm _ _ Pg ng Hng) as (ng' & Hng' & Pgn).
  rewrite Hnp', Hng'. cbn [bind ret].
  pose proof (normalize_all_pages _ _ Hnp) as Gp.
  pose proof (normalize_all_pages _ _ Hng) as Gg.
  pose proof (normalize_all_pages _ _ Hnp') as Gp'.
  pose proof (normalize_all_pages _ _ Hng') as Gg'.
  rewrite (count_true_positives_returns np ng Gp Gg) in H.
  rewrite (count_true_positives_returns np' ng' Gp' Gg'). cbn [bind] in H |- *.
  assert (Hcount : len (List.filter (fun n => existsb (match_bool n) ng') np')
                   = len (List.filter (fun n => existsb (match_bool n) ng) np)).
  { unfold len. f_equal. rewrite <- (filter_length_perm _ _ _ Ppn).
    f_equal. apply List.filter_ext. intros n. symmetry. now apply existsb_perm. }
  rewrite Hcount.
  assert (Lp : len (e' :: predicted') = len (e :: predicted))
    by (unfold len; now rewrite (Permutation_length Pp)).
  assert (Lg : len (g' :: gold') = len (g :: gold))
    by (unfold len; now rewrite (Permutation_length Pg)).
  rewrite Lp, Lg. exact H.
Qed.

Lemma score_entities_order_independent_witness :
  score_entities no_jsonschema
    [<["material"%string := VStr s!"copper"]> sample_pipe; sample_pipe] [sample_pipe]
  = ret (1 # 2, 1, 4 # 6)%Q.
Proof.
  apply (score_entities_order_independent no_jsonschema
           [sample_pipe; <["material"%string := VStr s!"copper"]> sample_pipe]
           [<["material"%string := VStr s!"copper"]> sample_pipe; sample_pipe]
           [sample_pipe] [sample_pipe]).
  - reflexivity.
  - reflexivity.
  - reflexivity.
  - reflexivity.
  - apply perm_swap.
  - reflexivity.
  - vm_compute. reflexivity.
Defined.

(** ** The result of [normalize_material] *)

Lemma replace_hyphen s :
  replace s!"-" s!" " s = map (fun c => if bool_decide ("-"%char = c) then " "%char else c) s.
Proof.
  unfold replace. change s!"-" with ["-"%char]. change s!" " with [" "%char].
  induction s as [|c s IH]; [reflexivity|].
  cbn [replace_from startswith map length Nat.pred app]. rewrite IH.
  destruct s; destruct (bool_decide ("-"%char = c)); reflexivity.
Qed.

Lemma drop_punctuation_filter s :
  drop_punctuation s = List.filter (fun c => isword c || isspace c) s.
Proof.
  unfold drop_punctuation. induction s as [|c s IH]; [reflexivity|].
  cbn [List.filter]. rewrite <- IH.
  destruct (isword c || isspace c) eqn:E.
  - apply filter_cons_True. now rewrite E.
  - apply filter_cons_False. now rewrite E.
Qed.

Lemma forallb_lstrip (f : ascii -> bool) s :
  forallb f s = true -> forallb f (lstrip s) = true.
Proof.
  induction s as [|c s IH]; [reflexivity|]. intros H. cbn [lstrip].
  destruct (isspace c); [|exact H].
  cbn [forallb] in H. apply andb_true_iff in H as [_ H]. now apply IH.
Qed.

Lemma forallb_rstrip (f : ascii -> bool) s :
  forallb f s = true -> forallb f (rstrip s) = true.
Proof.
  induction s as [|c s IH]; [reflexivity|]. intros H. rewrite rstrip_cons.
  destruct (isspace c && forallb isspace s); [reflexivity|].
  cbn [forallb] in H |- *. apply andb_true_iff in H as [Hc H].
  now rewrite Hc, IH.
Qed.

Lemma forallb_strip (f : ascii -> bool) s :
  forallb f s = true -> forallb f (strip s) = true.
Proof. intros H. now apply forallb_rstrip, forallb_lstrip. Qed.

Lemma material_char_blank : material_char " "%char = true.
Proof. reflexivity. Qed.

Lemma material_char_lower c : material_char c = true -> lower_char c = c.
Proof.
  unfold material_char. intros H. apply orb_true_iff in H as [H|H].
  - apply andb_true_iff in H as [_ H]. now apply bool_decide_eq_true in H.
  - apply bool_decide_eq_true in H. now subst c.
Qed.

Lemma material_char_kept c : material_char c = true -> isword c || isspace c = true.
Proof.
  unfold material_char. intros H. apply orb_true_iff in H as [H|H].
  - apply andb_true_iff in H as [-> _]. reflexivity.
  - apply bool_decide_eq_true in H. now subst c.
Qed.

Lemma material_char_no_hyphen c : material_char c = true -> bool_decide ("-"%char = c) = false.
Proof.
  intros H. destruct (bool_decide ("-"%char = c)) eqn:E; [|reflexivity].
  apply bool_decide_eq_true in E. subst c. discriminate H.
Qed.

Lemma collapse_ws_material in_run s :
  forallb (fun c => bool_decide (lower_char c = c)) s = true ->
  forallb (fun c => isword c || isspace c) s = true ->
  forallb material_char (collapse_ws in_run s) = true.
Proof.
  revert in_run. induction s as [|c s IH]; intros in_run Hl Hk; [reflexivity|].
  cbn [forallb] in Hl, Hk. apply andb_true_iff in Hl as [Hc Hl].
  apply andb_true_iff in Hk as [Hw Hk]. cbn [collapse_ws].
  destruct (isspace c) eqn:E.
  - destruct in_run; [now apply IH|].
    cbn [forallb]. now rewrite material_char_blank, IH.
  - cbn [forallb]. rewrite IH by assumption.
    unfold material_char. rewrite Hc. rewrite orb_false_r in Hw. now rewrite Hw.
Qed.

Lemma collapse_ws_single_blanks in_run s :
  single_blanks in_run (collapse_ws in_run s) = true.
Proof.
  revert in_run. induction s as [|c s IH]; intros in_run; [reflexivity|].
  cbn [collapse_ws]. destruct (isspace c) eqn:E.
  - destruct in_run; [apply IH|]. cbn. apply IH.
  - cbn [single_blanks]. rewrite E. apply IH.
Qed.

Lemma collapse_ws_fixed in_run s :
  single_blanks in_run s = true -> collapse_ws in_run s = s.
Proof.
  revert in_run. induction s as [|c s IH]; intros in_run H; [reflexivity|].
  cbn [single_blanks collapse_ws] in H |- *. destruct (isspace c).
  - apply andb_true_iff in H as [H Hs]. apply andb_true_iff in H as [Hc Hr].
    apply bool_decide_eq_true in Hc. subst c. destruct in_run; [discriminate|].
    now rewrite IH.
  - now rewrite IH.
Qed.

Lemma lstrip_single_blanks after_blank s :
  single_blanks after_blank s = true -> single_blanks false (lstrip s) = true.
Proof.
  revert after_blank. induction s as [|c s IH]; intros after_blank H; [reflexivity|].
  cbn [lstrip]. cbn [single_blanks] in H. destruct (isspace c) eqn:E.
  - apply andb_true_iff in H as [_ H]. exact (IH true H).
  - cbn [single_blanks]. now rewrite E.
Qed.

Lemma rstrip_single_blanks after_blank s :
  single_blanks after_blank s = true -> single_blanks after_blank (rstrip s) = true.
Proof.
  revert after_blank. induction s as [|c s IH]; intros after_blank H; [reflexivity|].
  rewrite rstrip_cons. destruct (isspace c && forallb isspace s); [reflexivity|].
  cbn [single_blanks] in H |- *. destruct (isspace c).
  - apply andb_true_iff in H as [-> H]. now rewrite IH.
  - now apply IH.
Qed.

Lemma normalize_material_chars material :
  forallb material_char (normalize_material material) = true.
Proof.
  unfold normalize_material. apply collapse_ws_material.
  - rewrite drop_punctuation_filter. apply forallb_forall. intros c Hc.
    apply filter_In in Hc as [Hc _]. revert c Hc. apply forallb_forall.
    rewrite replace_hyphen.
    assert (H : forallb (fun c => bool_decide (lower_char c = c)) (strip (lower material)) = true).
    { apply forallb_strip. unfold lower. apply forallb_forall. intros c Hc.
      apply in_map_iff in Hc as [x [<- _]]. apply bool_decide_eq_true, lower_char_idem. }
    rewrite forallb_forall in H. apply forallb_forall. intros c Hc.
    apply in_map_iff in Hc as [x [<- Hx]].
    destruct (bool_decide ("-"%char = x)); [reflexivity|now apply H].
  - rewrite drop_punctuation_filter. apply forallb_forall. intros c Hc.
    now apply filter_In in Hc as [_ Hc].
Qed.

Lemma material_stages s :
  forallb material_char s = true ->
  lower s = s /\ replace s!"-" s!" " s = s /\ drop_punctuation s = s.
Proof.
  intros H. rewrite forallb_forall in H. split; [|split].
  - unfold lower. rewrite <- (map_id s) at 2. apply map_ext_in.
    intros c Hc. now apply material_char_lower, H.
  - rewrite replace_hyphen. rewrite <- (map_id s) at 2. apply map_ext_in.
    intros c Hc. now rewrite (material_char_no_hyphen c (H c Hc)).
  - rewrite drop_punctuation_filter. apply filter_all. intros c Hc.
    now apply material_char_kept, H.
Qed.

(** X27. What [normalize_material] returns: every character is the blank
    or a word character that is its own lower case, the only white space is
    the blank, and no two blanks stand next to each other. *)
Theorem normalize_material_result material :
  forallb material_char (normalize_material material) = true
  /\ single_blanks false (normalize_material material) = true.
Proof.
  split; [apply normalize_material_chars|].
  unfold normalize_material. apply collapse_ws_single_blanks.
Qed.

(** X28. A second pass of [normalize_material] only trims: normalizing a
    normalized material removes the blank a hyphen or a dropped character
    left at either end, and changes nothing else. *)
Theorem normalize_material_second_pass material :
  normalize_material (normalize_material material) = strip (normalize_material material).
Proof.
  pose proof (normalize_material_chars material) as Hc.
  assert (Hb : single_blanks false (normalize_material material) = true)
    by (unfold normalize_material; apply collapse_ws_single_blanks).
  set (n := normalize_material material) in *.
  unfold normalize_material at 1.
  destruct (material_stages n Hc) as (-> & _ & _).
  destruct (material_stages (strip n) (forallb_strip _ _ Hc)) as (_ & -> & ->).
  apply collapse_ws_fixed. unfold strip.
  now apply rstrip_single_blanks, (lstrip_single_blanks false).
Qed.
